(** * Toto MCP server: authorization-state registry and token-refresh coordinator

    A shallow embedding of
      - [src/security/errors.ts]            (the error taxonomy),
      - [src/auth/types.ts]                 ([TokenSet], [ITokenManager]),
      - the in-memory [MockTokenManager] of [tests/unit/token-refresher.test.ts],
      - [src/auth/secure-oauth-client.ts]   ([SecureOAuthClient]),
      - [src/auth/token-refresher.ts]       ([TokenRefresher]),
      - [src/auth/keytar-token-manager.ts]  ([KeytarTokenManager], over a
        keychain whose native calls may fail),
      - [src/config/environment.ts]         ([loadConfiguration],
        [getConfiguration]),
      - [src/auth/token-manager-factory.ts] ([getTokenManager],
        [resetTokenManager]),
    followed by the properties of the CSRF state protocol and of the
    single-flight refresh protocol, and by those of the token storage, the
    configuration and the factory.

    Conventions.
      - JavaScript numbers that hold millisecond timestamps are integers [Z].
      - Every read of [Date.now()] is an explicit argument of the operation
        that performs it; two reads inside one operation are two arguments.
      - [crypto.randomBytes(32).toString('hex')] is an argument ([state]) of
        [generateAuthUrl]: the properties hold for whatever string it yields.
      - The MSAL client is an oracle ([Msal.Client]); every call made to it is
        appended to a log, so that "no network call" is a statement on the log.
      - A thrown exception is the [Throw] constructor of [Result]; state
        changes made before a throw are kept, as in JavaScript. *)

From Stdlib Require Import ZArith Lia Ascii.
From stdpp Require Import base option list gmap strings pretty.

Local Open Scope Z_scope.

(** ** Errors ([src/security/errors.ts]) *)

Inductive AppError : Type :=
  | AuthenticationError (message : string)
  | AuthorizationError (message : string)
  | TokenStorageError (message : string)
  | ForeignError (message : string).
    (* [ForeignError] stands for every thrown value that is not an [AppError]:
       [new Error(...)] of the test doubles, and whatever MSAL rejects with. *)

Definition statusCode (e : AppError) : Z :=
  match e with
  | AuthenticationError _ => 401
  | AuthorizationError _ => 403
  | TokenStorageError _ => 500
  | ForeignError _ => 500
  end.

Inductive Result (A : Type) : Type :=
  | Ok (a : A)
  | Throw (e : AppError).
Arguments Ok {A} a.
Arguments Throw {A} e.

(** ** A state-and-exception monad

    [Eff W A] is a computation over a mutable world [W] that returns an [A] or
    throws.  The world after a throw is the world at the point of the throw. *)

Definition Eff (W A : Type) : Type := W → Result A * W.

#[export] Instance eff_ret {W} : MRet (Eff W) := λ A a w, (Ok a, w).

#[export] Instance eff_bind {W} : MBind (Eff W) :=
  λ A B k m w, match m w with
               | (Ok a, w') => k a w'
               | (Throw e, w') => (Throw e, w')
               end.

Definition throw {W A} (e : AppError) : Eff W A := λ w, (Throw e, w).

(** [try { body } catch (error) { handler(error) }] *)
Definition try_catch {W A} (body : Eff W A) (handler : AppError → Eff W A) : Eff W A :=
  λ w, match body w with
       | (Ok a, w') => (Ok a, w')
       | (Throw e, w') => handler e w'
       end.

Definition modify {W} (f : W → W) : Eff W unit := λ w, (Ok tt, f w).

(** The outcome of an awaited call whose answer is given from outside. *)
Definition await {W A} (r : Result A) : Eff W A := λ w, (r, w).

(** ** JavaScript's [||] on the two types it is used with

    [x || d] yields [d] when [x] is falsy.  For a number obtained through
    [?.getTime()] the falsy values are [undefined] and [0] (and [NaN], which
    an integer timestamp cannot be); for a string obtained through
    [?.join(' ')] they are [undefined] and the empty string. *)

Definition or_number (x : option Z) (d : Z) : Z :=
  match x with
  | Some v => if bool_decide (v = 0) then d else v
  | None => d
  end.

Definition or_string (x : option string) (d : string) : string :=
  match x with
  | Some v => if bool_decide (v = "") then d else v
  | None => d
  end.

(** [!s] for a string [s]. *)
Definition falsy_string (s : string) : bool := bool_decide (s = "").

(** [Array.prototype.join(' ')] *)
Definition join (l : list string) : string := String.concat " " l.

(** ** Token sets and the token manager interface ([src/auth/types.ts]) *)

Record TokenSet : Type := {
  accessToken : string;
  refreshToken : string;
  expiresAt : Z;          (* Unix timestamp in milliseconds *)
  scope : string;
}.

(** [ITokenManager]: a store with state [M].  [getTokens] and
    [hasValidTokens] only read. [hasValidTokens] takes its [Date.now()]. *)
Class ITokenManager (M : Type) : Type := {
  storeTokens : TokenSet → Eff M unit;
  getTokens : M → Result TokenSet;
  hasValidTokens : Z → M → bool;
  clearTokens : Eff M unit;
  updateAccessToken : string → Z → Eff M unit;
}.

(** The in-memory manager of the unit tests:
    [private tokens: TokenSet | null = null]. *)
Module MockTokenManager.

Definition t : Type := option TokenSet.

Definition storeTokens (tokens : TokenSet) : Eff t unit :=
  λ _, (Ok tt, Some tokens).

Definition getTokens (this : t) : Result TokenSet :=
  match this with
  | None => Throw (ForeignError "No tokens stored")
  | Some tokens => Ok tokens
  end.

Definition hasValidTokens (now : Z) (this : t) : bool :=
  match this with
  | None => false
  | Some tokens => bool_decide (expiresAt tokens > now)
  end.

Definition clearTokens : Eff t unit := λ _, (Ok tt, None).

Definition updateAccessToken (accessToken' : string) (expiresAt' : Z) : Eff t unit :=
  λ this,
    match this with
    | Some tokens =>
        (Ok tt, Some {| accessToken := accessToken';
                        refreshToken := refreshToken tokens;
                        expiresAt := expiresAt';
                        scope := scope tokens |})
    | None => (Ok tt, None)
    end.

End MockTokenManager.

#[export] Instance mock_token_manager : ITokenManager MockTokenManager.t := {
  storeTokens := MockTokenManager.storeTokens;
  getTokens := MockTokenManager.getTokens;
  hasValidTokens := MockTokenManager.hasValidTokens;
  clearTokens := MockTokenManager.clearTokens;
  updateAccessToken := MockTokenManager.updateAccessToken;
}.

(** The 1Password manager ([one-password-token-manager.ts]) is a stub that
    keeps no state: every write throws, [clearTokens] does nothing. *)
Module OnePasswordTokenManager.

Definition t : Type := unit.

Definition not_implemented : AppError :=
  TokenStorageError "1Password not yet implemented".

Definition storeTokens (_tokens : TokenSet) : Eff t unit := throw not_implemented.
Definition getTokens (_ : t) : Result TokenSet := Throw not_implemented.
Definition hasValidTokens (_ : Z) (_ : t) : bool := false.
Definition clearTokens : Eff t unit := mret tt.
Definition updateAccessToken (_accessToken : string) (_expiresAt : Z) : Eff t unit :=
  throw not_implemented.

End OnePasswordTokenManager.

#[export] Instance one_password_token_manager : ITokenManager OnePasswordTokenManager.t := {
  storeTokens := OnePasswordTokenManager.storeTokens;
  getTokens := OnePasswordTokenManager.getTokens;
  hasValidTokens := OnePasswordTokenManager.hasValidTokens;
  clearTokens := OnePasswordTokenManager.clearTokens;
  updateAccessToken := OnePasswordTokenManager.updateAccessToken;
}.

(** ** Configuration ([src/config/environment.ts]), the fields used here *)

Record Environment : Type := {
  AZURE_REDIRECT_URI : string;
  STATE_TIMEOUT_MINUTES : Z;
}.

(** ** The MSAL client, as an oracle with a call log *)

Module Msal.

Record AuthenticationResult : Type := {
  accessToken : string;
  expiresOn : option Z;            (* [Date | null], as [getTime()] *)
  scopes : option (list string);   (* read through [?.] by the callers *)
}.

Record AccountInfo : Type := { homeAccountId : string }.

Inductive Call : Type :=
  | GetAuthCodeUrl (scopes : list string) (redirectUri state : string)
  | AcquireTokenByCode (code : string) (scopes : list string) (redirectUri : string)
  | GetAllAccounts
  | AcquireTokenByRefreshToken (refreshToken : string) (scopes : list string).

(** What the provider answers.  [Ok None] is a [null] result. *)
Record Client : Type := {
  getAuthCodeUrl : list string → string → string → Result string;
  acquireTokenByCode : string → list string → string → Result (option AuthenticationResult);
  getAllAccounts : Result (option (list AccountInfo));
}.

End Msal.

(** ** The secure OAuth client ([src/auth/secure-oauth-client.ts]) *)

(** State entry for CSRF protection *)
Record StateEntry : Type := {
  timestamp : Z;
  codeVerifier : option string;   (* For PKCE; never written by this client *)
}.

(** Authorization result containing URL and state *)
Record AuthorizationUrl : Type := { url : string; state : string }.

Module SecureOAuthClient.

Section WithTokenManager.

Context {M : Type} `{ITokenManager M}.

(** The mutable part of an instance: the injected [tokenManager], the
    [stateStore] and, for the proofs, the log of the calls made on
    [msalClient]. *)
Record t : Type := {
  tokenManager : M;
  stateStore : gmap string StateEntry;
  msalCalls : list Msal.Call;
}.

Definition scopes : list string := ["Tasks.Read"; "User.Read"; "offline_access"].

(** [constructor(tokenManager)] *)
Definition new (tokenManager : M) : t :=
  {| tokenManager := tokenManager; stateStore := ∅; msalCalls := [] |}.

Definition set_stateStore (f : gmap string StateEntry → gmap string StateEntry)
    (this : t) : t :=
  {| tokenManager := tokenManager this;
     stateStore := f (stateStore this);
     msalCalls := msalCalls this |}.

(** A call on [this.msalClient]: logged, then answered by the oracle. *)
Definition msal_call {A} (c : Msal.Call) (answer : Result A) : Eff t A :=
  λ this, (answer, {| tokenManager := tokenManager this;
                      stateStore := stateStore this;
                      msalCalls := msalCalls this ++ [c] |}).

(** A call on [this.tokenManager]. *)
Definition on_tokenManager {A} (m : Eff M A) : Eff t A :=
  λ this, let '(r, tm) := m (tokenManager this) in
          (r, {| tokenManager := tm;
                 stateStore := stateStore this;
                 msalCalls := msalCalls this |}).

(** [config.STATE_TIMEOUT_MINUTES * 60 * 1000] *)
Definition maxAge (config : Environment) : Z :=
  STATE_TIMEOUT_MINUTES config * 60 * 1000.

(** [getStateCount] *)
Definition getStateCount (this : t) : nat := size (stateStore this).

(** [validateState]: the lookup, the age test, the unconditional delete
    of a present entry. *)
Definition validateState (config : Environment) (state : string) (now : Z)
    : Eff t bool :=
  λ this,
    match stateStore this !! state with
    | None => (Ok false, this)
    | Some stored =>
        let isValid := bool_decide (now - timestamp stored < maxAge config) in
        (Ok isValid, set_stateStore (delete state) this)
    end.

(** The entries the sweep at clock [now] leaves in place. *)
Definition kept (config : Environment) (now : Z) (kv : string * StateEntry) : Prop :=
  ¬ (now - timestamp kv.2 > maxAge config).

#[export] Instance kept_dec config now kv : Decision (kept config now kv).
Proof. unfold kept. apply _. Defined.

(** [cleanExpiredStates]: deletes every entry with
    [now - entry.timestamp > maxAge].  Deleting the current entry while
    iterating a [Map] is well defined, so the loop is a filter. *)
Definition cleanExpiredStates (config : Environment) (now : Z) (this : t) : t :=
  set_stateStore (filter (kept config now)) this.

(** The entry [generateAuthUrl] writes at clock [now]. *)
Definition issued (now : Z) : StateEntry :=
  {| timestamp := now; codeVerifier := None |}.

(** The number the loop accumulates in [cleanedCount]. *)
Definition cleanedCount (config : Environment) (now : Z) (this : t) : nat :=
  (size (stateStore this)
   - size (stateStore (cleanExpiredStates config now this)))%nat.

(** [generateAuthUrl].  [state] is the fresh random token, [now] the clock
    read that stamps the entry, [now_sweep] the clock read of the sweep. *)
Definition generateAuthUrl (config : Environment) (msal : Msal.Client)
    (state : string) (now now_sweep : Z) : Eff t AuthorizationUrl :=
  modify (set_stateStore (<[state := issued now]>));;
  modify (cleanExpiredStates config now_sweep);;
  try_catch
    (url ← msal_call
             (Msal.GetAuthCodeUrl scopes (AZURE_REDIRECT_URI config) state)
             (Msal.getAuthCodeUrl msal scopes (AZURE_REDIRECT_URI config) state);
     mret {| url := url; state := state |})
    (λ _error, throw (AuthenticationError "Failed to generate authorization URL")).

(** [handleCallback].  [now] is the clock read of [validateState],
    [now_store] the one of the default expiry. *)
Definition handleCallback (config : Environment) (msal : Msal.Client)
    (code state : string) (now now_store : Z) : Eff t unit :=
  valid ← validateState config state now;
  if negb valid then
    throw (AuthorizationError "Invalid or expired state token")
  else
    try_catch
      (response ← msal_call
             (Msal.AcquireTokenByCode code scopes (AZURE_REDIRECT_URI config))
             (Msal.acquireTokenByCode msal code scopes (AZURE_REDIRECT_URI config));
       match response with
       | None => throw (AuthenticationError "Invalid token response")
       | Some response =>
           if falsy_string (Msal.accessToken response) then
             throw (AuthenticationError "Invalid token response")
           else
             accounts ← msal_call Msal.GetAllAccounts (Msal.getAllAccounts msal);
             match accounts with
             | None | Some [] =>
                 throw (AuthenticationError "No account found after token acquisition")
             | Some (account :: _) =>
                 let refreshToken := Msal.homeAccountId account in
                 on_tokenManager
                   (storeTokens
                      {| accessToken := Msal.accessToken response;
                         refreshToken := refreshToken;
                         expiresAt := or_number (Msal.expiresOn response)
                                                (now_store + 3600000);
                         scope := or_string (join <$> Msal.scopes response)
                                            (join scopes) |})
             end
       end)
      (λ _error, throw (AuthenticationError "Failed to complete authentication")).

(** *** Histories of a client

    What can happen to one client between two moments: the public
    methods, and a tick of the [setInterval] timer armed by
    [startStateCleanup], which runs [cleanExpiredStates].  Both methods are
    [async], but each reads and writes [stateStore] before its first [await]
    only, so for the registry a method is one step. *)
Inductive Op : Type :=
  | GenerateAuthUrl (msal : Msal.Client) (state : string) (now now_sweep : Z)
  | HandleCallback (msal : Msal.Client) (code state : string) (now now_store : Z)
  | TimerTick (now : Z).

Definition exec (config : Environment) (this : t) (op : Op) : t :=
  match op with
  | GenerateAuthUrl msal state now now_sweep =>
      (generateAuthUrl config msal state now now_sweep this).2
  | HandleCallback msal code state now now_store =>
      (handleCallback config msal code state now now_store this).2
  | TimerTick now => cleanExpiredStates config now this
  end.

Definition run (config : Environment) (ops : list Op) (this : t) : t :=
  foldl (exec config) this ops.

(** [op] registers [state]. *)
Definition issues (state : string) (op : Op) : Prop :=
  match op with
  | GenerateAuthUrl _ state' _ _ => state' = state
  | _ => False
  end.

(** [op] presents [state] for validation. *)
Definition presents (state : string) (op : Op) : Prop :=
  match op with
  | HandleCallback _ _ state' _ _ => state' = state
  | _ => False
  end.

(** [op] sweeps no later than [now]. *)
Definition sweeps_by (now : Z) (op : Op) : Prop :=
  match op with
  | GenerateAuthUrl _ _ _ now_sweep => now_sweep ≤ now
  | HandleCallback _ _ _ _ _ => True
  | TimerTick now' => now' ≤ now
  end.

(** A [state] that [validateState] rejects at clock [now]: never issued
    (missing or forged), no longer in the registry (consumed or swept), or
    present with an age that is not below the timeout. *)
Definition invalid_state (config : Environment) (state : string) (now : Z)
    (this : t) : Prop :=
  stateStore this !! state = None
  ∨ ∃ stored, stateStore this !! state = Some stored
              ∧ ¬ (now - timestamp stored < maxAge config).

(** The entry issued for [state] at clock [now] is still as issued, or it is
    gone and older than the timeout at clock [now_v]. *)
Definition tracked (config : Environment) (state : string) (now now_v : Z)
    (this : t) : Prop :=
  stateStore this !! state = Some (issued now)
  ∨ (stateStore this !! state = None ∧ now_v - now > maxAge config).

End WithTokenManager.

Arguments t M : clear implicits.
Arguments Op : clear implicits.

End SecureOAuthClient.


(** ** The token refresher ([src/auth/token-refresher.ts])

    [getValidAccessToken] is an [async] function: it suspends at
    [await this.tokenManager.getTokens()] and at [await this.refreshPromise],
    and between two suspensions it runs without interruption.  Several calls
    are therefore interleaved at these points only.  The embedding makes the
    interleaving explicit: a [World] holds the refresher, the promises it has
    created and the callers in flight, and an [Event] runs one uninterrupted
    piece of code of one of them. *)

Module TokenRefresher.

(** Where a call of [getValidAccessToken] stands. *)
Inductive Caller : Type :=
  | AwaitingTokens (tokens : Result TokenSet)
      (* suspended on [getTokens()], which has produced [tokens] *)
  | AwaitingOwnRefresh (p : nat)
      (* suspended in [try { await this.refreshPromise }], promise [p] *)
  | AwaitingSharedRefresh (p : nat)
      (* has executed [return this.refreshPromise], promise [p] *)
  | Returned (outcome : Result string).

Section WithTokenManager.

Context {M : Type} `{ITokenManager M}.

Record World : Type := {
  tokenManager : M;
  refreshPromise : option nat;            (* [Promise<string> | null], by identity *)
  promises : list (option (Result string));
      (* the promises made by [refreshAccessToken]; [None] while pending *)
  msalCalls : list Msal.Call;
  callers : list Caller;
}.

(** [constructor(tokenManager)], with nobody calling yet. *)
Definition new (tokenManager : M) : World :=
  {| tokenManager := tokenManager; refreshPromise := None; promises := [];
     msalCalls := []; callers := [] |}.

Definition expiryBuffer : Z := 5 * 60 * 1000.

Definition set_caller (c : nat) (k : Caller) (w : World) : World :=
  {| tokenManager := tokenManager w; refreshPromise := refreshPromise w;
     promises := promises w; msalCalls := msalCalls w;
     callers := <[c := k]> (callers w) |}.

(** A call of [getValidAccessToken()]: a new caller, which runs up to the
    first [await]; [getTokens()] has been called by then. *)
Definition invoke (w : World) : World :=
  {| tokenManager := tokenManager w; refreshPromise := refreshPromise w;
     promises := promises w; msalCalls := msalCalls w;
     callers := callers w ++ [AwaitingTokens (getTokens (tokenManager w))] |}.

(** [refreshAccessToken(refreshToken)] up to its first [await]: the request
    is sent to the provider and a pending promise is returned. *)
Definition refreshAccessToken_send (refreshToken : string) (w : World) : nat * World :=
  (length (promises w),
   {| tokenManager := tokenManager w; refreshPromise := refreshPromise w;
      promises := promises w ++ [None];
      msalCalls := msalCalls w
        ++ [Msal.AcquireTokenByRefreshToken refreshToken ["Tasks.Read"; "User.Read"]];
      callers := callers w |}).

(** The rest of [refreshAccessToken], once the provider has answered with
    [response]; [now] is the clock read of the default expiry. *)
Definition refreshAccessToken_receive
    (response : Result (option Msal.AuthenticationResult)) (now : Z) : Eff M string :=
  try_catch
    (response ← await response;
     match response with
     | None => throw (AuthenticationError "Token refresh failed")
     | Some response =>
         updateAccessToken (Msal.accessToken response)
           (or_number (Msal.expiresOn response) (now + 3600000));;
         mret (Msal.accessToken response)
     end)
    (λ _error,
       clearTokens;;
       throw (AuthenticationError "Session expired. Please re-authenticate.")).

(** Caller [c] resumes from [await this.tokenManager.getTokens()] at clock
    [now] and runs to its next suspension or to its return. *)
Definition resume_with_tokens (c : nat) (now : Z) (w : World) : option World :=
  match callers w !! c with
  | Some (AwaitingTokens (Throw e)) => Some (set_caller c (Returned (Throw e)) w)
  | Some (AwaitingTokens (Ok tokens)) =>
      if bool_decide (expiresAt tokens - now > expiryBuffer) then
        Some (set_caller c (Returned (Ok (accessToken tokens))) w)
      else
        match refreshPromise w with
        | Some p => Some (set_caller c (AwaitingSharedRefresh p) w)
        | None =>
            let '(p, w') := refreshAccessToken_send (refreshToken tokens) w in
            Some (set_caller c (AwaitingOwnRefresh p)
                    {| tokenManager := tokenManager w'; refreshPromise := Some p;
                       promises := promises w'; msalCalls := msalCalls w';
                       callers := callers w' |})
        end
  | _ => None
  end.

(** The provider answers the request behind the pending promise [p]; the
    rest of [refreshAccessToken] runs and settles [p].  The write to the token
    manager and the settlement are one step: a caller running in between
    would find the marker set, as it does after the settlement. *)
Definition provider_answers (p : nat)
    (response : Result (option Msal.AuthenticationResult)) (now : Z)
    (w : World) : option World :=
  match promises w !! p with
  | Some None =>
      let '(outcome, tm) := refreshAccessToken_receive response now (tokenManager w) in
      Some {| tokenManager := tm; refreshPromise := refreshPromise w;
              promises := <[p := Some outcome]> (promises w);
              msalCalls := msalCalls w; callers := callers w |}
  | _ => None
  end.

(** The caller that started the refresh resumes from
    [await this.refreshPromise]; the [finally] block clears the marker. *)
Definition owner_resumes (c : nat) (w : World) : option World :=
  match callers w !! c with
  | Some (AwaitingOwnRefresh p) =>
      match promises w !! p with
      | Some (Some outcome) =>
          Some {| tokenManager := tokenManager w; refreshPromise := None;
                  promises := promises w; msalCalls := msalCalls w;
                  callers := <[c := Returned outcome]> (callers w) |}
      | _ => None
      end
  | _ => None
  end.

(** A caller that returned the shared promise receives its outcome. *)
Definition waiter_resumes (c : nat) (w : World) : option World :=
  match callers w !! c with
  | Some (AwaitingSharedRefresh p) =>
      match promises w !! p with
      | Some (Some outcome) => Some (set_caller c (Returned outcome) w)
      | _ => None
      end
  | _ => None
  end.

Inductive Event : Type :=
  | Invoke
  | ResumeWithTokens (c : nat) (now : Z)
  | ProviderAnswers (p : nat) (response : Result (option Msal.AuthenticationResult))
      (now : Z)
  | OwnerResumes (c : nat)
  | WaiterResumes (c : nat).

(** One event; [None] when the event cannot happen in [w]. *)
Definition step (w : World) (ev : Event) : option World :=
  match ev with
  | Invoke => Some (invoke w)
  | ResumeWithTokens c now => resume_with_tokens c now w
  | ProviderAnswers p response now => provider_answers p response now w
  | OwnerResumes c => owner_resumes c w
  | WaiterResumes c => waiter_resumes c w
  end.

Fixpoint run (evs : list Event) (w : World) : option World :=
  match evs with
  | [] => Some w
  | ev :: evs => w' ← step w ev; run evs w'
  end.

(** The number of refresh exchanges sent to the provider. *)
Definition exchanges (w : World) : nat := length (msalCalls w).

(** [tokens] need a refresh at clock [now]: the test of line 41 fails. *)
Definition needs_refresh (tokens : TokenSet) (now : Z) : Prop :=
  ¬ (expiresAt tokens - now > expiryBuffer).

(** Events of the callers' arrival: calls, and resumptions from [getTokens]
    at clocks at which the stored [tokens] need a refresh. *)
Definition arrival (tokens : TokenSet) (ev : Event) : Prop :=
  match ev with
  | Invoke => True
  | ResumeWithTokens _ now => needs_refresh tokens now
  | _ => False
  end.

Definition returned (k : Caller) : Prop :=
  match k with Returned _ => True | _ => False end.

(** Events by which callers receive the outcome of a settled refresh. *)
Definition delivery (ev : Event) : Prop :=
  match ev with
  | OwnerResumes _ | WaiterResumes _ => True
  | _ => False
  end.

(** [getValidAccessToken()] called alone and run to completion: the call,
    its resumption at [now] and, when it started a refresh, the provider's
    [response] at [now_refresh] and the caller's last resumption. *)
Definition getValidAccessToken (now : Z)
    (response : Result (option Msal.AuthenticationResult)) (now_refresh : Z)
    (w : World) : option World :=
  let c := length (callers w) in
  w1 ← resume_with_tokens c now (invoke w);
  match callers w1 !! c with
  | Some (AwaitingOwnRefresh p) =>
      w2 ← provider_answers p response now_refresh w1; owner_resumes c w2
  | Some (AwaitingSharedRefresh p) => waiter_resumes c w1
  | _ => Some w1
  end.

(** The request a refresh for [tokens] sends to the provider. *)
Definition refresh_request (tokens : TokenSet) : Msal.Call :=
  Msal.AcquireTokenByRefreshToken (refreshToken tokens) ["Tasks.Read"; "User.Read"].

(** A refresher with no call in flight. *)
Definition idle (w : World) : Prop :=
  refreshPromise w = None ∧ Forall returned (callers w).

(** *** Two invariants of a burst of calls on an idle refresher [w0]

    [arriving]: new callers [ks] are arriving while the manager holds
    [tokens]; either none has resumed yet, or one exchange is under way on a
    new promise, with its owner among them.  [delivering]: that exchange has
    settled with [outcome] and left the manager [tm]. *)
Definition arriving (w0 : World) (tokens : TokenSet) (w : World) : Prop :=
  let p0 := length (promises w0) in
  tokenManager w = tokenManager w0
  ∧ ∃ ks, callers w = callers w0 ++ ks
    ∧ ((refreshPromise w = None ∧ promises w = promises w0
        ∧ msalCalls w = msalCalls w0
        ∧ Forall (λ k, k = AwaitingTokens (Ok tokens)) ks)
       ∨ (refreshPromise w = Some p0 ∧ promises w = promises w0 ++ [None]
          ∧ msalCalls w = msalCalls w0 ++ [refresh_request tokens]
          ∧ Forall (λ k, k = AwaitingTokens (Ok tokens)
                         ∨ k = AwaitingOwnRefresh p0 ∨ k = AwaitingSharedRefresh p0)
              ks
          ∧ ∃ c, ks !! c = Some (AwaitingOwnRefresh p0))).

Definition delivering (w0 : World) (tm : M) (tokens : TokenSet)
    (outcome : Result string) (w : World) : Prop :=
  let p0 := length (promises w0) in
  tokenManager w = tm
  ∧ promises w = promises w0 ++ [Some outcome]
  ∧ msalCalls w = msalCalls w0 ++ [refresh_request tokens]
  ∧ ∃ ks, callers w = callers w0 ++ ks
    ∧ Forall (λ k, k = AwaitingTokens (Ok tokens)
                   ∨ k = AwaitingOwnRefresh p0 ∨ k = AwaitingSharedRefresh p0
                   ∨ k = Returned outcome)
        ks
    ∧ (refreshPromise w = None ∨ ∃ c, ks !! c = Some (AwaitingOwnRefresh p0))
    ∧ (0 < length ks)%nat.

(** A burst of [n] calls on [w0], in the order of the JavaScript job queue
    when they are made back to back: the calls, their resumptions at clock
    [now], the provider's answer, then the owner and the waiters. *)
Definition burst (w0 : World) (n : nat) (now : Z)
    (response : Result (option Msal.AuthenticationResult)) (now_refresh : Z)
    : list Event :=
  let c0 := length (callers w0) in
  replicate n Invoke
  ++ ((λ c, ResumeWithTokens c now) <$> seq c0 n)
  ++ ProviderAnswers (length (promises w0)) response now_refresh
  :: OwnerResumes c0
  :: (WaiterResumes <$> seq (S c0) (n - 1)).

End WithTokenManager.

Arguments World M : clear implicits.

End TokenRefresher.

(** ** The token set of a completed callback, in the specification's words

    "Persist a TokenSet ([accessToken], the resolved handle as [refreshToken],
    [expiresAt] from the provider's expiry or a safe default of +1 hour if
    absent, [scope] from the provider response or the requested scope set)".
    This definition follows that sentence, not the code; the code's own
    record is inside [SecureOAuthClient.handleCallback]. *)
Definition specified_TokenSet (response : Msal.AuthenticationResult)
    (account : Msal.AccountInfo) (now_store : Z) : TokenSet :=
  {| accessToken := Msal.accessToken response;
     refreshToken := Msal.homeAccountId account;
     expiresAt := match Msal.expiresOn response with
                  | Some expiry => expiry
                  | None => now_store + 3600000
                  end;
     scope := match Msal.scopes response with
              | Some granted => join granted
              | None => join SecureOAuthClient.scopes
              end |}.

(** ** Values of the unit tests, for concrete runs *)

Module Fixtures.

(** The configuration mocked in [tests/unit/*.test.ts]. *)
Definition config : Environment :=
  {| AZURE_REDIRECT_URI := "http://localhost:3000/callback";
     STATE_TIMEOUT_MINUTES := 5 |}.

Definition account : Msal.AccountInfo := {| Msal.homeAccountId := "test-account-id" |}.

(** The answer mocked for [acquireTokenByCode], expiring at [expiry]. *)
Definition response (expiry : option Z) : Msal.AuthenticationResult :=
  {| Msal.accessToken := "test-access-token";
     Msal.expiresOn := expiry;
     Msal.scopes := Some ["Tasks.Read"; "User.Read"; "offline_access"] |}.

(** A provider that answers every call. *)
Definition msal (expiry : option Z) : Msal.Client :=
  {| Msal.getAuthCodeUrl := λ _ _ state,
       Ok ("https://login.microsoftonline.com/test-tenant-id/authorize?state=" +:+ state);
     Msal.acquireTokenByCode := λ _ _ _, Ok (Some (response expiry));
     Msal.getAllAccounts := Ok (Some [account]) |}.

(** A provider that rejects every call. *)
Definition msal_down : Msal.Client :=
  {| Msal.getAuthCodeUrl := λ _ _ _, Throw (ForeignError "MSAL error");
     Msal.acquireTokenByCode := λ _ _ _, Throw (ForeignError "MSAL error");
     Msal.getAllAccounts := Throw (ForeignError "MSAL error") |}.

(** The token set stored by the refresher tests, expiring at [expiry]. *)
Definition tokens (expiry : Z) : TokenSet :=
  {| accessToken := "old-token"; refreshToken := "refresh-token";
     expiresAt := expiry; scope := "Tasks.Read User.Read" |}.

(** A client over the in-memory manager, and one that has issued ["5c1f"] at
    clock 1000. *)
Definition client : SecureOAuthClient.t MockTokenManager.t :=
  SecureOAuthClient.new None.

Definition client_issued (expiry : option Z) : SecureOAuthClient.t MockTokenManager.t :=
  (SecureOAuthClient.generateAuthUrl config (msal expiry) "5c1f" 1000 1000 client).2.

(** The answer mocked for a refresh, and the refresher after three
    concurrent calls have been served by it. *)
Definition refreshed : Msal.AuthenticationResult :=
  {| Msal.accessToken := "new-token"; Msal.expiresOn := Some 3700000;
     Msal.scopes := None |}.

Definition after_burst : TokenRefresher.World MockTokenManager.t :=
  {| TokenRefresher.tokenManager :=
       Some {| accessToken := "new-token"; refreshToken := "refresh-token";
               expiresAt := 3700000; scope := "Tasks.Read User.Read" |};
     TokenRefresher.refreshPromise := None;
     TokenRefresher.promises := [Some (Ok "new-token")];
     TokenRefresher.msalCalls :=
       [Msal.AcquireTokenByRefreshToken "refresh-token" ["Tasks.Read"; "User.Read"]];
     TokenRefresher.callers :=
       [TokenRefresher.Returned (Ok "new-token");
        TokenRefresher.Returned (Ok "new-token");
        TokenRefresher.Returned (Ok "new-token")] |}.

End Fixtures.

(** ** Further notions on the client and the refresher *)

Module SecureOAuthClientMore.
Import SecureOAuthClient.

(** The number of [generateAuthUrl] calls in a history. *)
Fixpoint issue_count (ops : list Op) : nat :=
  match ops with
  | [] => 0
  | GenerateAuthUrl _ _ _ _ :: ops => S (issue_count ops)
  | _ :: ops => issue_count ops
  end.

(** The provider side of a callback fails: the code exchange throws, answers
    [null] or answers with an empty access token, or the account lookup
    throws, answers [null] or answers with no account. *)
Definition exchange_fails (config : Environment) (msal : Msal.Client) (code : string)
    : Prop :=
  match Msal.acquireTokenByCode msal code scopes (AZURE_REDIRECT_URI config) with
  | Throw _ | Ok None => True
  | Ok (Some response) =>
      Msal.accessToken response = ""
      ∨ match Msal.getAllAccounts msal with
        | Throw _ | Ok None | Ok (Some []) => True
        | Ok (Some (_ :: _)) => False
        end
  end.

End SecureOAuthClientMore.

Module TokenRefresherMore.
Import TokenRefresher.

Section WithTokenManager.

Context {M : Type} `{ITokenManager M}.

(** One refresh at a time: every exchange sent has its promise; a pending
    promise is the one in the marker; a set marker has its owner, the only
    caller suspended in the [try] block, who will clear it. *)
Definition one_at_a_time (w : World M) : Prop :=
  length (msalCalls w) = length (promises w)
  ∧ (∀ p, promises w !! p = Some None → refreshPromise w = Some p)
  ∧ (∀ c p, callers w !! c = Some (AwaitingOwnRefresh p) → refreshPromise w = Some p)
  ∧ (∀ c c' p p', callers w !! c = Some (AwaitingOwnRefresh p) →
                  callers w !! c' = Some (AwaitingOwnRefresh p') → c = c')
  ∧ (∀ p, refreshPromise w = Some p →
          (p < length (promises w))%nat
          ∧ ∃ c, callers w !! c = Some (AwaitingOwnRefresh p)).

(** Single flight in the specification's words, for the calls made on
    [w0] in a run that ends in [w]: exactly one exchange has been sent, and
    all the calls have resolved to one outcome. *)
Definition specified_single_flight (w0 w : World M) : Prop :=
  exchanges w = S (exchanges w0)
  ∧ ∃ outcome,
      Forall (λ k, k = Returned outcome) (drop (length (callers w0)) (callers w)).

End WithTokenManager.

End TokenRefresherMore.

(** Two calls made back to back, the second of which resumes from
    [getTokens] only after the refresh of the first has been rejected and its
    owner has cleared the marker; and the refresher at the end of that run. *)
Module RefresherFixtures.
Import TokenRefresher.

Definition rejected : Result (option Msal.AuthenticationResult) :=
  Throw (ForeignError "invalid_grant").

Definition late_resumption : list Event :=
  [Invoke; Invoke;
   ResumeWithTokens 0 1000; ProviderAnswers 0 rejected 1100; OwnerResumes 0;
   ResumeWithTokens 1 1200; ProviderAnswers 1 (Ok (Some Fixtures.refreshed)) 1300;
   OwnerResumes 1].

Definition after_late_resumption : World MockTokenManager.t :=
  {| tokenManager := None;
     refreshPromise := None;
     promises :=
       [Some (Throw (AuthenticationError "Session expired. Please re-authenticate."));
        Some (Ok "new-token")];
     msalCalls :=
       [Msal.AcquireTokenByRefreshToken "refresh-token" ["Tasks.Read"; "User.Read"];
        Msal.AcquireTokenByRefreshToken "refresh-token" ["Tasks.Read"; "User.Read"]];
     callers :=
       [Returned (Throw (AuthenticationError "Session expired. Please re-authenticate."));
        Returned (Ok "new-token")] |}.

End RefresherFixtures.

(** ** The keytar token manager ([src/auth/keytar-token-manager.ts]) *)

(** *** The two JavaScript built-ins it uses

    [Number.prototype.toString()] on an integer below 10^21 in absolute value
    is its decimal notation, with a minus sign for a negative one; from 10^21
    on JavaScript switches to exponent notation, which [number_toString] does
    not model: the properties that print a number assume [prints_as_decimal].
    [parseInt(s, 10)] skips leading white space (here: the ASCII white space
    characters), reads an optional sign and then the longest run of decimal
    digits; without a digit the result is [NaN], here [None]. *)
Module Js.

Definition prints_as_decimal (z : Z) : Prop := Z.abs z < 10 ^ 21.

Definition number_toString (z : Z) : string := pretty z.

Definition is_whitespace (a : ascii) : bool :=
  existsb (Ascii.eqb a)
    [Ascii.ascii_of_nat 9; Ascii.ascii_of_nat 10; Ascii.ascii_of_nat 11;
     Ascii.ascii_of_nat 12; Ascii.ascii_of_nat 13; Ascii.ascii_of_nat 32].

Fixpoint skip_whitespace (s : string) : string :=
  match s with
  | String a rest => if is_whitespace a then skip_whitespace rest else s
  | EmptyString => s
  end.

(** The value of a decimal digit, by its character code. *)
Definition digit_of (a : ascii) : option Z :=
  let code := Z.of_nat (Ascii.nat_of_ascii a) in
  if bool_decide (48 ≤ code ≤ 57) then Some (code - 48) else None.

(** The value of the longest prefix of digits, after the digits already read
    as [acc]; [None] when no digit has been read. *)
Fixpoint parse_digits (s : string) (acc : option Z) : option Z :=
  match s with
  | String a rest =>
      match digit_of a with
      | Some d => parse_digits rest (Some (10 * default 0 acc + d))
      | None => acc
      end
  | EmptyString => acc
  end.

Definition parseInt (s : string) : option Z :=
  match skip_whitespace s with
  | String "-" rest => Z.opp <$> parse_digits rest None
  | String "+" rest => parse_digits rest None
  | s' => parse_digits s' None
  end.

(** [x > y] where [x] may be [NaN]. *)
Definition gt (x : option Z) (y : Z) : bool :=
  match x with Some x => bool_decide (x > y) | None => false end.

End Js.

(** *** The keytar package

    A keychain maps (service, account) to a password.  The package is a
    JavaScript wrapper over a native module.  The wrapper checks its
    arguments first: an empty service, account or password is refused with a
    plain [Error] before the native module is called.  Each native call may
    then fail for reasons of its own; [faults] says which of the coming
    native calls do, in order ([true]: the call rejects), and no call fails
    once the list is used up. *)
Module Keytar.

Record t : Type := {
  entries : gmap (string * string) string;
  faults : list bool;
}.

Definition native {A} (op : gmap (string * string) string → A * gmap (string * string) string)
    : Eff t A :=
  λ k,
    match faults k with
    | true :: rest =>
        (Throw (ForeignError "Keytar error"), {| entries := entries k; faults := rest |})
    | false :: rest =>
        let '(a, m) := op (entries k) in (Ok a, {| entries := m; faults := rest |})
    | [] =>
        let '(a, m) := op (entries k) in (Ok a, {| entries := m; faults := [] |})
    end.

(** [checkRequired(val, name)]: throws when [val] is missing or empty. *)
Definition checkRequired (val name : string) : Eff t unit :=
  if falsy_string val then throw (ForeignError (name +:+ " is required."))
  else mret tt.

Definition setPassword (service account password : string) : Eff t unit :=
  checkRequired service "Service";;
  checkRequired account "Account";;
  checkRequired password "Password";;
  native (λ m, (tt, <[(service, account) := password]> m)).

Definition getPassword (service account : string) : Eff t (option string) :=
  checkRequired service "Service";;
  checkRequired account "Account";;
  native (λ m, (m !! (service, account), m)).

Definition deletePassword (service account : string) : Eff t bool :=
  checkRequired service "Service";;
  checkRequired account "Account";;
  native (λ m, (bool_decide (is_Some (m !! (service, account))),
                delete (service, account) m)).

(** None of the coming [n] native calls fails. *)
Definition calm (n : nat) (k : t) : bool := forallb negb (take n (faults k)).

(** The keychain after [n] native calls, none of which changed an entry. *)
Definition after (n : nat) (entries' : gmap (string * string) string) (k : t) : t :=
  {| entries := entries'; faults := drop n (faults k) |}.

End Keytar.

Module KeytarTokenManager.

Definition SERVICE_NAME : string := "toto-mcp-server".

(** What [getTokens] resolves to: the fields of a [TokenSet], with for
    [expiresAt] the result of [parseInt], which can be [NaN]. *)
Record Retrieved : Type := {
  retrieved_accessToken : string;
  retrieved_refreshToken : string;
  retrieved_expiresAt : option Z;
  retrieved_scope : string;
}.

Definition retrieved_of (tokens : TokenSet) : Retrieved :=
  {| retrieved_accessToken := accessToken tokens;
     retrieved_refreshToken := refreshToken tokens;
     retrieved_expiresAt := Some (expiresAt tokens);
     retrieved_scope := scope tokens |}.

(** [!x] for [x : string | null]. *)
Definition missing (x : option string) : bool :=
  match x with
  | None => true
  | Some s => falsy_string s
  end.

Definition storeTokens (tokens : TokenSet) : Eff Keytar.t unit :=
  try_catch
    (Keytar.setPassword SERVICE_NAME "access_token" (accessToken tokens);;
     Keytar.setPassword SERVICE_NAME "refresh_token" (refreshToken tokens);;
     Keytar.setPassword SERVICE_NAME "expires_at" (Js.number_toString (expiresAt tokens));;
     Keytar.setPassword SERVICE_NAME "scope" (scope tokens))
    (λ _error, throw (TokenStorageError "Failed to store tokens")).

Definition getTokens : Eff Keytar.t Retrieved :=
  try_catch
    (accessToken ← Keytar.getPassword SERVICE_NAME "access_token";
     refreshToken ← Keytar.getPassword SERVICE_NAME "refresh_token";
     expiresAt ← Keytar.getPassword SERVICE_NAME "expires_at";
     scope ← Keytar.getPassword SERVICE_NAME "scope";
     if missing accessToken || missing refreshToken || missing expiresAt
        || missing scope
     then throw (TokenStorageError "Incomplete token set")
     else mret {| retrieved_accessToken := default "" accessToken;
                  retrieved_refreshToken := default "" refreshToken;
                  retrieved_expiresAt := Js.parseInt (default "" expiresAt);
                  retrieved_scope := default "" scope |})
    (λ _error, throw (TokenStorageError "No tokens found")).

Definition hasValidTokens (now : Z) : Eff Keytar.t bool :=
  try_catch
    (tokens ← getTokens; mret (Js.gt (retrieved_expiresAt tokens) now))
    (λ _error, mret false).

Definition clearTokens : Eff Keytar.t unit :=
  try_catch
    (Keytar.deletePassword SERVICE_NAME "access_token";;
     Keytar.deletePassword SERVICE_NAME "refresh_token";;
     Keytar.deletePassword SERVICE_NAME "expires_at";;
     Keytar.deletePassword SERVICE_NAME "scope";;
     mret tt)
    (λ _error, throw (TokenStorageError "Failed to clear tokens")).

(** [storeTokens({...tokens, accessToken, expiresAt})] *)
Definition updateAccessToken (accessToken' : string) (expiresAt' : Z) : Eff Keytar.t unit :=
  tokens ← getTokens;
  storeTokens {| accessToken := accessToken';
                 refreshToken := retrieved_refreshToken tokens;
                 expiresAt := expiresAt';
                 scope := retrieved_scope tokens |}.

(** The four entries of a stored token set. *)
Definition written (tokens : TokenSet) : list (string * string) :=
  [("access_token", accessToken tokens);
   ("refresh_token", refreshToken tokens);
   ("expires_at", Js.number_toString (expiresAt tokens));
   ("scope", scope tokens)].

Definition write (m : gmap (string * string) string) (kv : string * string)
    : gmap (string * string) string :=
  <[(SERVICE_NAME, kv.1) := kv.2]> m.

(** A keychain on which no native call fails any more. *)
Definition sound (entries : gmap (string * string) string) : Keytar.t :=
  {| Keytar.entries := entries; Keytar.faults := [] |}.

(** The accounts of a token set, in the order in which they are written,
    read and deleted. *)
Definition accounts : list string :=
  ["access_token"; "refresh_token"; "expires_at"; "scope"].

Definition erase (m : gmap (string * string) string) (account : string)
    : gmap (string * string) string :=
  delete (SERVICE_NAME, account) m.

(** What the body of [getTokens] makes of the four entries it has read. *)
Definition assembled (m : gmap (string * string) string) : Result Retrieved :=
  let accessToken := m !! (SERVICE_NAME, "access_token") in
  let refreshToken := m !! (SERVICE_NAME, "refresh_token") in
  let expiresAt := m !! (SERVICE_NAME, "expires_at") in
  let scope := m !! (SERVICE_NAME, "scope") in
  if missing accessToken || missing refreshToken || missing expiresAt
     || missing scope
  then Throw (TokenStorageError "No tokens found")
  else Ok {| retrieved_accessToken := default "" accessToken;
             retrieved_refreshToken := default "" refreshToken;
             retrieved_expiresAt := Js.parseInt (default "" expiresAt);
             retrieved_scope := default "" scope |}.

End KeytarTokenManager.

Module KeytarFixtures.

(** The token set of the keytar manager's tests, as a new set and as the one
    an earlier login has left. *)
Definition tokens : TokenSet :=
  {| accessToken := "test-access-token"; refreshToken := "test-refresh-token";
     expiresAt := 1700003600000; scope := "Tasks.Read User.Read" |}.

(** An empty keychain, and one that holds [Fixtures.tokens expiry]; no native
    call fails on either. *)
Definition empty : Keytar.t := KeytarTokenManager.sound ∅.

Definition holding (expiry : Z) : Keytar.t :=
  KeytarTokenManager.sound
    (foldl KeytarTokenManager.write ∅
       (KeytarTokenManager.written (Fixtures.tokens expiry))).

(** A token set without scope, and [Fixtures.tokens] after a refresh. *)
Definition without_scope : TokenSet :=
  {| accessToken := "test-access-token"; refreshToken := "test-refresh-token";
     expiresAt := 1700003600000; scope := "" |}.

Definition updated : TokenSet :=
  {| accessToken := "new-token"; refreshToken := "refresh-token";
     expiresAt := 1700007200000; scope := "Tasks.Read User.Read" |}.

End KeytarFixtures.

(** ** Loading the configuration ([src/config/environment.ts])

    [envSchema.parse(process.env)] is given from outside: the parsed
    environment, or the issues of the [ZodError] it throws.  The module
    variable [config] is the world; it is [undefined] ([None]) until a call
    assigns it.  [ConfigurationError] is a plain [Error] local to the
    module, not an [AppError]. *)
Module EnvironmentConfig.

Inductive TokenStorage : Type := OnePassword | KeytarStorage.

Definition is_1password (storage : TokenStorage) : bool :=
  match storage with OnePassword => true | KeytarStorage => false end.

(** The parsed environment: the two fields read here, and those read by
    the OAuth client. *)
Record t : Type := {
  TOKEN_STORAGE : TokenStorage;
  OP_SERVICE_ACCOUNT_TOKEN : option string;
  oauth : Environment;
}.

Record Issue : Type := {
  path : list string;
  message : string;
}.

Definition ConfigurationError (message : string) : AppError := ForeignError message.

Definition newline : string := String (Ascii.ascii_of_nat 10) "".

(** [`${i.path.join('.')}: ${i.message}`] *)
Definition render (i : Issue) : string :=
  String.concat "." (path i) +:+ ": " +:+ message i.

Definition loadConfiguration (parsed : list Issue + t) : Eff (option t) t :=
  match parsed with
  | inr parsed =>
      modify (λ _, Some parsed);;
      if is_1password (TOKEN_STORAGE parsed)
         && KeytarTokenManager.missing (OP_SERVICE_ACCOUNT_TOKEN parsed)
      then throw (ConfigurationError
                    "1Password selected but OP_SERVICE_ACCOUNT_TOKEN not provided")
      else mret parsed
  | inl issues =>
      throw (ConfigurationError
               ("Configuration validation failed:" +:+ newline
                +:+ String.concat newline (render <$> issues)))
  end.

Definition getConfiguration : Eff (option t) t :=
  λ config,
    match config with
    | Some loaded => (Ok loaded, config)
    | None =>
        (Throw (ConfigurationError
                  "Configuration not loaded. Call loadConfiguration() first."),
         config)
    end.

(** The environment that got past the schema, if it did. *)
Definition accepted (parsed : list Issue + t) : option t :=
  match parsed with inr parsed => Some parsed | inl _ => None end.

(** The world after a series of calls of [loadConfiguration], whatever
    they returned or threw. *)
Definition loads (calls : list (list Issue + t)) (config : option t) : option t :=
  foldl (λ config parsed, (loadConfiguration parsed config).2) config calls.

End EnvironmentConfig.

(** ** The token manager factory ([src/auth/token-manager-factory.ts])

    A manager is an object: what class it has and which object it is.  The
    world holds the module variable [tokenManagerInstance], the [config] of
    the environment module, and the number of managers constructed so far,
    which names the next object. *)
Module OnePasswordTokenManagerMore.

Definition initialize : Eff OnePasswordTokenManager.t unit :=
  throw (TokenStorageError
           "1Password integration not yet implemented. Please use TOKEN_STORAGE=keytar").

End OnePasswordTokenManagerMore.

Module TokenManagerFactory.

Inductive Class : Type := OnePasswordClass | KeytarClass.

Record Manager : Type := {
  class : Class;
  object : nat;
}.

Record t : Type := {
  config : option EnvironmentConfig.t;
  tokenManagerInstance : option Manager;
  constructed : nat;
}.

Definition initial : t :=
  {| config := None; tokenManagerInstance := None; constructed := 0 |}.

(** A call into the environment module. *)
Definition on_config {A} (m : Eff (option EnvironmentConfig.t) A) : Eff t A :=
  λ w, let '(r, config') := m (config w) in
       (r, {| config := config';
              tokenManagerInstance := tokenManagerInstance w;
              constructed := constructed w |}).

(** [new C()] *)
Definition construct (c : Class) : Eff t Manager :=
  λ w, (Ok {| class := c; object := constructed w |},
        {| config := config w;
           tokenManagerInstance := tokenManagerInstance w;
           constructed := S (constructed w) |}).

Definition set_tokenManagerInstance (instance : option Manager) : Eff t unit :=
  modify (λ w, {| config := config w;
                  tokenManagerInstance := instance;
                  constructed := constructed w |}).

(** [manager.initialize()] of a 1Password manager, which has no state. *)
Definition initialize (manager : Manager) : Eff t unit :=
  λ w, ((OnePasswordTokenManagerMore.initialize tt).1, w).

Definition getTokenManager : Eff t Manager :=
  λ w,
    match tokenManagerInstance w with
    | Some instance => (Ok instance, w)
    | None =>
        (config ← on_config EnvironmentConfig.getConfiguration;
         if EnvironmentConfig.is_1password (EnvironmentConfig.TOKEN_STORAGE config)
         then
           manager ← construct OnePasswordClass;
           initialize manager;;
           set_tokenManagerInstance (Some manager);;
           mret manager
         else
           manager ← construct KeytarClass;
           set_tokenManagerInstance (Some manager);;
           mret manager) w
    end.

Definition resetTokenManager : Eff t unit := set_tokenManagerInstance None.

(** Calls from the rest of the program, in the order in which they are
    made. *)
Inductive Op : Type :=
  | LoadConfiguration (parsed : list EnvironmentConfig.Issue + EnvironmentConfig.t)
  | GetTokenManager
  | ResetTokenManager.

Definition exec (w : t) (op : Op) : t :=
  match op with
  | LoadConfiguration parsed =>
      (on_config (EnvironmentConfig.loadConfiguration parsed) w).2
  | GetTokenManager => (getTokenManager w).2
  | ResetTokenManager => (resetTokenManager w).2
  end.

Definition run (ops : list Op) (w : t) : t := foldl exec w ops.

Definition is_reset (op : Op) : bool :=
  match op with ResetTokenManager => true | _ => false end.

(** The cached manager, if any, is a keytar manager constructed earlier,
    and not before [n] managers had been. *)
Definition recent (n : nat) (w : t) : Prop :=
  (n ≤ constructed w)%nat
  ∧ ∀ instance, tokenManagerInstance w = Some instance →
      class instance = KeytarClass
      ∧ (n ≤ object instance < constructed w)%nat.

End TokenManagerFactory.

Module FactoryFixtures.

Definition keytar_config : EnvironmentConfig.t :=
  {| EnvironmentConfig.TOKEN_STORAGE := EnvironmentConfig.KeytarStorage;
     EnvironmentConfig.OP_SERVICE_ACCOUNT_TOKEN := None;
     EnvironmentConfig.oauth := Fixtures.config |}.

Definition one_password_config (token : option string) : EnvironmentConfig.t :=
  {| EnvironmentConfig.TOKEN_STORAGE := EnvironmentConfig.OnePassword;
     EnvironmentConfig.OP_SERVICE_ACCOUNT_TOKEN := token;
     EnvironmentConfig.oauth := Fixtures.config |}.

(** The factory once a keytar configuration is loaded, and the first two
    managers it constructs. *)
Definition configured : TokenManagerFactory.t :=
  TokenManagerFactory.exec TokenManagerFactory.initial
    (TokenManagerFactory.LoadConfiguration (inr keytar_config)).

Definition first_manager : TokenManagerFactory.Manager :=
  {| TokenManagerFactory.class := TokenManagerFactory.KeytarClass;
     TokenManagerFactory.object := 0 |}.

Definition second_manager : TokenManagerFactory.Manager :=
  {| TokenManagerFactory.class := TokenManagerFactory.KeytarClass;
     TokenManagerFactory.object := 1 |}.

End FactoryFixtures.

(** * Properties of the authorization-state registry *)

Module RegistryFacts.
Import SecureOAuthClient.

Section Registry.

Context {M : Type} `{ITokenManager M}.
Variable config : Environment.

Implicit Types (this : SecureOAuthClient.t M) (state : string) (now : Z).

(** *** What each operation does to the [stateStore] *)

Lemma validateState_present this state now stored :
  stateStore this !! state = Some stored →
  validateState config state now this
  = (Ok (bool_decide (now - timestamp stored < maxAge config)),
     set_stateStore (delete state) this).
Proof. intros Hs. unfold validateState. by rewrite Hs. Qed.

Lemma validateState_absent this state now :
  stateStore this !! state = None →
  validateState config state now this = (Ok false, this).
Proof. intros Hs. unfold validateState. by rewrite Hs. Qed.

Lemma validateState_stateStore this state now :
  stateStore (validateState config state now this).2
  = delete state (stateStore this).
Proof.
  unfold validateState.
  destruct (stateStore this !! state) eqn:Hs; simpl; [done|].
  by rewrite delete_id.
Qed.

Lemma validateState_consumes this state now :
  stateStore (validateState config state now this).2 !! state = None.
Proof. rewrite validateState_stateStore. apply lookup_delete_eq. Qed.

Lemma validateState_never_throws this state now :
  ∃ b, (validateState config state now this).1 = Ok b.
Proof.
  unfold validateState. destruct (stateStore this !! state); simpl; eauto.
Qed.

Lemma generateAuthUrl_stateStore msal this state now now_sweep :
  stateStore (generateAuthUrl config msal state now now_sweep this).2
  = filter (kept config now_sweep) (<[state := issued now]> (stateStore this)).
Proof.
  unfold generateAuthUrl, mbind, eff_bind, modify, try_catch, msal_call; simpl.
  by destruct (Msal.getAuthCodeUrl msal _ _ _).
Qed.

Lemma handleCallback_stateStore msal this code state now now_store :
  stateStore (handleCallback config msal code state now now_store this).2
  = delete state (stateStore this).
Proof.
  rewrite <- (validateState_stateStore this state now).
  unfold handleCallback, mbind, eff_bind.
  destruct (validateState config state now this) as [[[]|] this']; simpl; try done.
  unfold try_catch, mbind, eff_bind, msal_call, on_tokenManager, throw; simpl.
  destruct (Msal.acquireTokenByCode msal _ _ _) as [[response|]|]; simpl; try done.
  destruct (falsy_string _); simpl; try done.
  destruct (Msal.getAllAccounts msal) as [[[|account accounts]|]|]; simpl; try done.
  by destruct (storeTokens _ _) as [[] ?].
Qed.

(** The sweep keeps exactly the entries that are not older than the
    timeout, unchanged. *)
Lemma lookup_sweep (m : gmap string StateEntry) now state :
  filter (kept config now) m !! state
  = match m !! state with
    | Some e => if decide (now - timestamp e > maxAge config) then None else Some e
    | None => None
    end.
Proof.
  rewrite map_lookup_filter. destruct (m !! state) as [e|]; simpl; [|done].
  unfold kept; simpl. destruct (decide (now - timestamp e > maxAge config)).
  - rewrite option_guard_False; [done|]. tauto.
  - by rewrite option_guard_True.
Qed.


(** *** Histories *)

Lemma exec_lookup_other this op state :
  ¬ issues state op →
  stateStore this !! state = None →
  stateStore (exec config this op) !! state = None.
Proof.
  intros Hop Hs. destruct op as [msal state' now now_sweep| |now]; simpl in *.
  - rewrite generateAuthUrl_stateStore, lookup_sweep.
    by rewrite lookup_insert_ne, Hs.
  - rewrite handleCallback_stateStore.
    rewrite lookup_delete. case_decide; done.
  - rewrite lookup_sweep. by rewrite Hs.
Qed.

(** Once a token is out of the registry it stays out, unless it is issued
    again. *)
Lemma absent_stays ops this state :
  Forall (λ op, ¬ issues state op) ops →
  stateStore this !! state = None →
  stateStore (run config ops this) !! state = None.
Proof.
  intros Hops. revert this.
  induction Hops as [|op ops Hop _ IH]; intros this Hs; [done|].
  simpl. apply IH. by apply exec_lookup_other.
Qed.

Lemma tracked_sweep (m : gmap string StateEntry) state now now_sweep now_v this :
  now_sweep ≤ now_v →
  stateStore this = filter (kept config now_sweep) m →
  (m !! state = Some (issued now)
   ∨ (m !! state = None ∧ now_v - now > maxAge config)) →
  tracked config state now now_v this.
Proof.
  intros Hle Hst Hm. unfold tracked. rewrite Hst, lookup_sweep.
  destruct Hm as [-> | [-> ?]]; [|by right].
  simpl. case_decide; [right|by left]. split; [done|lia].
Qed.

Lemma tracked_exec this op state now now_v :
  ¬ issues state op → ¬ presents state op → sweeps_by now_v op →
  tracked config state now now_v this →
  tracked config state now now_v (exec config this op).
Proof.
  intros Hi Hp Hsw Ht.
  destruct op as [msal state' now' now_sweep|msal code state' now' now_store|now'];
    simpl in *.
  - eapply tracked_sweep; [done|apply generateAuthUrl_stateStore|].
    by rewrite lookup_insert_ne.
  - unfold tracked. rewrite handleCallback_stateStore.
    by rewrite lookup_delete_ne.
  - eapply tracked_sweep; [done|reflexivity|done].
Qed.

Lemma tracked_run ops this state now now_v :
  Forall (λ op, ¬ issues state op ∧ ¬ presents state op ∧ sweeps_by now_v op) ops →
  tracked config state now now_v this →
  tracked config state now now_v (run config ops this).
Proof.
  intros Hops. revert this.
  induction Hops as [|op ops (Hi & Hp & Hsw) _ IH]; intros this Ht; [done|].
  simpl. apply IH. by apply tracked_exec.
Qed.

Lemma tracked_generateAuthUrl msal this state now now_sweep now_v :
  now_sweep ≤ now_v →
  tracked config state now now_v (generateAuthUrl config msal state now now_sweep this).2.
Proof.
  intros Hle. eapply tracked_sweep; [done|apply generateAuthUrl_stateStore|].
  left. apply lookup_insert_eq.
Qed.

Lemma validateState_tracked this state now now_v :
  tracked config state now now_v this →
  (validateState config state now_v this).1
  = Ok (bool_decide (now_v - now < maxAge config)).
Proof.
  intros [Hs | [Hs Hold]].
  - by rewrite (validateState_present _ _ _ _ Hs).
  - rewrite (validateState_absent _ _ _ Hs); simpl.
    rewrite bool_decide_eq_false_2; [done|lia].
Qed.

(** [handleCallback] under a rejected state. *)
Lemma handleCallback_rejects msal this code state now now_store :
  (validateState config state now this).1 = Ok false →
  handleCallback config msal code state now now_store this
  = (Throw (AuthorizationError "Invalid or expired state token"),
     (validateState config state now this).2).
Proof.
  intros Hv. unfold handleCallback, mbind, eff_bind.
  destruct (validateState config state now this) as [r this'].
  simpl in Hv. by subst r.
Qed.

Lemma validateState_invalid this state now :
  invalid_state config state now this ↔
  (validateState config state now this).1 = Ok false.
Proof.
  unfold invalid_state, validateState.
  destruct (stateStore this !! state) as [stored|]; simpl; [|by intuition].
  split.
  - intros [? | (stored' & [= <-] & Hn)]; [done|].
    by rewrite bool_decide_eq_false_2.
  - intros [= Hb]. apply bool_decide_eq_false in Hb. right. eauto.
Qed.

Lemma validateState_keeps_rest this state now :
  tokenManager (validateState config state now this).2 = tokenManager this
  ∧ msalCalls (validateState config state now this).2 = msalCalls this.
Proof.
  unfold validateState. by destruct (stateStore this !! state).
Qed.

Lemma exec_lookup_shrinks this op state :
  ¬ issues state op →
  stateStore (exec config this op) !! state = stateStore this !! state
  ∨ stateStore (exec config this op) !! state = None.
Proof.
  intros Hop. destruct op as [msal state' now now_sweep| |now]; simpl in *.
  - rewrite generateAuthUrl_stateStore, lookup_sweep, lookup_insert_ne by done.
    destruct (stateStore this !! state); [case_decide|]; auto.
  - rewrite handleCallback_stateStore, lookup_delete. case_decide; auto.
  - rewrite lookup_sweep.
    destruct (stateStore this !! state); [case_decide|]; auto.
Qed.

Lemma run_lookup_shrinks ops this state :
  Forall (λ op, ¬ issues state op) ops →
  stateStore (run config ops this) !! state = stateStore this !! state
  ∨ stateStore (run config ops this) !! state = None.
Proof.
  intros Hops. revert this.
  induction Hops as [|op ops Hop Hops IH]; intros this; [by left|].
  simpl. destruct (exec_lookup_shrinks this op state Hop) as [Heq | Hnone].
  - rewrite <- Heq. apply IH.
  - right. by apply absent_stays.
Qed.

(** Whatever the first [handleCallback] did, the state it was given is out
    of the registry, and stays out. *)
Lemma handleCallback_twice msal1 msal2 code state now1 now_store1 now2 now_store2
    ops this :
  Forall (λ op, ¬ issues state op) ops →
  (handleCallback config msal2 code state now2 now_store2
     (run config ops
        (handleCallback config msal1 code state now1 now_store1 this).2)).1
  = Throw (AuthorizationError "Invalid or expired state token").
Proof.
  intros Hops. rewrite handleCallback_rejects; [done|].
  rewrite validateState_absent; [done|].
  apply absent_stays; [done|].
  rewrite handleCallback_stateStore. apply lookup_delete_eq.
Qed.

(** *** The claims on the registry *)

(** C1 (single use).  A state token is issued by [generateAuthUrl] at clock
    [now]; other tokens are then issued and presented and the registry is
    swept, by a clock that does not run backwards up to [now_v].  The first
    validation of the token, at [now_v], returns true exactly when the age
    [now_v - now] is below the timeout, and leaves the token out of the
    registry.  Every later validation returns false, whatever happens in
    between short of issuing the very same token again; and a second
    [handleCallback] with the state of a first one throws
    [AuthorizationError]. *)
Theorem state_token_single_use msal this0 state now now_sweep ops now_v :
  now_sweep ≤ now_v →
  Forall (λ op, ¬ issues state op ∧ ¬ presents state op ∧ sweeps_by now_v op) ops →
  let this1 := (generateAuthUrl config msal state now now_sweep this0).2 in
  let first := validateState config state now_v (run config ops this1) in
  first.1 = Ok (bool_decide (now_v - now < maxAge config))
  ∧ stateStore first.2 !! state = None
  ∧ (∀ ops' now',
       Forall (λ op, ¬ issues state op) ops' →
       (validateState config state now' (run config ops' first.2)).1 = Ok false)
  ∧ (∀ msal1 msal2 code now1 now_store1 now2 now_store2 ops' this,
       Forall (λ op, ¬ issues state op) ops' →
       (handleCallback config msal2 code state now2 now_store2
          (run config ops'
             (handleCallback config msal1 code state now1 now_store1 this).2)).1
       = Throw (AuthorizationError "Invalid or expired state token")).
Proof.
  intros Hle Hops this1 first. repeat split.
  - apply validateState_tracked, tracked_run; [done|].
    by apply tracked_generateAuthUrl.
  - apply validateState_consumes.
  - intros ops' now' Hops'. rewrite validateState_absent; [done|].
    apply absent_stays; [done|]. apply validateState_consumes.
  - intros. by apply handleCallback_twice.
Qed.

(** C4 (expiry).  A state token is issued at clock [now]; a validation
    attempted when more than the timeout has elapsed returns false, whatever
    happened in between short of issuing the same token again, and the token
    is out of the registry after the attempt.  The latter holds for every
    validation attempt, whatever its outcome. *)
Theorem expired_state_rejected_and_removed msal this0 state now now_sweep ops now_v :
  Forall (λ op, ¬ issues state op) ops →
  now_v - now > maxAge config →
  let this1 := (generateAuthUrl config msal state now now_sweep this0).2 in
  let attempt := validateState config state now_v (run config ops this1) in
  attempt.1 = Ok false
  ∧ stateStore attempt.2 !! state = None
  ∧ (∀ this now', stateStore (validateState config state now' this).2 !! state = None).
Proof.
  intros Hops Hold this1 attempt. repeat split.
  - apply validateState_invalid. unfold invalid_state.
    destruct (run_lookup_shrinks ops this1 state Hops) as [-> | ->]; [|by left].
    unfold this1. rewrite generateAuthUrl_stateStore, lookup_sweep, lookup_insert_eq.
    case_decide; [by left|]. right. eexists. split; [done|]. simpl. lia.
  - apply validateState_consumes.
  - intros. apply validateState_consumes.
Qed.

(** C5 (no exchange under an invalid state).  When [state] is not in the
    registry (it was never issued, or it is forged, or it was consumed or
    swept) or is there with an age that is not below the timeout,
    [handleCallback] throws [AuthorizationError], makes no call on the MSAL
    client and leaves the token manager alone.  A state that has been
    presented to [handleCallback] before is not in the registry, at any later
    time, unless the same token is issued again. *)
Theorem invalid_state_never_exchanged msal this code state now now_store :
  invalid_state config state now this →
  let result := handleCallback config msal code state now now_store this in
  result.1 = Throw (AuthorizationError "Invalid or expired state token")
  ∧ msalCalls result.2 = msalCalls this
  ∧ tokenManager result.2 = tokenManager this
  ∧ (∀ msal' code' now' now_store' ops this',
       Forall (λ op, ¬ issues state op) ops →
       stateStore
         (run config ops
            (handleCallback config msal' code' state now' now_store' this').2)
         !! state = None).
Proof.
  intros Hinv result.
  apply validateState_invalid in Hinv.
  unfold result. rewrite (handleCallback_rejects _ _ _ _ _ _ Hinv). simpl.
  destruct (validateState_keeps_rest this state now) as [Htm Hcalls].
  repeat split; try done.
  intros. apply absent_stays; [done|].
  rewrite handleCallback_stateStore. apply lookup_delete_eq.
Qed.

(** *** Issuing and sweeping *)

Lemma generateAuthUrl_swept msal this state now now_sweep :
  map_Forall (λ _ e, ¬ (now_sweep - timestamp e > maxAge config))
    (stateStore (generateAuthUrl config msal state now now_sweep this).2).
Proof.
  rewrite generateAuthUrl_stateStore. intros k e Hk.
  by apply map_lookup_filter_Some in Hk as [_ Hkept].
Qed.

Lemma generateAuthUrl_entries (P : StateEntry → Prop) msal this state now now_sweep :
  map_Forall (λ _, P) (stateStore this) →
  P (issued now) →
  map_Forall (λ _, P)
    (stateStore (generateAuthUrl config msal state now now_sweep this).2).
Proof.
  intros Hall Hnew. rewrite generateAuthUrl_stateStore. intros k e Hk.
  apply map_lookup_filter_Some in Hk as [Hk _].
  apply lookup_insert_Some in Hk as [[_ <-] | [_ Hk]]; [done|].
  by apply (Hall k).
Qed.

(** Issuing into a registry whose entries are all older than the timeout
    leaves the new entry alone. *)
Lemma generateAuthUrl_over_expired msal this state now now_sweep :
  map_Forall (λ _ e, now_sweep - timestamp e > maxAge config) (stateStore this) →
  ¬ (now_sweep - now > maxAge config) →
  stateStore (generateAuthUrl config msal state now now_sweep this).2
  = {[ state := issued now ]}.
Proof.
  intros Hold Hnew. rewrite generateAuthUrl_stateStore.
  apply map_eq. intros k. rewrite lookup_sweep.
  destruct (decide (k = state)) as [->|Hne].
  - rewrite lookup_insert_eq, lookup_singleton_eq. simpl. by case_decide.
  - rewrite lookup_insert_ne, lookup_singleton_ne by done.
    destruct (stateStore this !! k) as [e|] eqn:Hk; [|done].
    apply Hold in Hk. by case_decide.
Qed.

(** C8 (sweep on issue).  When [generateAuthUrl] returns or throws, no entry
    of the registry is older than the timeout at the clock read by its sweep.
    Consequently: issue three states, let the clock pass the timeout for each
    of them, issue a fourth (whose own entry the sweep finds within the
    timeout); the registry then holds one entry. *)
Theorem issue_sweeps_expired tm msal1 msal2 msal3 msal4 s1 s2 s3 s4
    t1 t1' t2 t2' t3 t3' t4 t4' :
  t4' - t1 > maxAge config →
  t4' - t2 > maxAge config →
  t4' - t3 > maxAge config →
  ¬ (t4' - t4 > maxAge config) →
  (∀ msal this state now now_sweep,
     map_Forall (λ _ e, ¬ (now_sweep - timestamp e > maxAge config))
       (stateStore (generateAuthUrl config msal state now now_sweep this).2))
  ∧ getStateCount
      (run config
         [GenerateAuthUrl msal1 s1 t1 t1'; GenerateAuthUrl msal2 s2 t2 t2';
          GenerateAuthUrl msal3 s3 t3 t3'; GenerateAuthUrl msal4 s4 t4 t4']
         (new tm))
    = 1%nat.
Proof.
  intros H1 H2 H3 H4. split; [intros; apply generateAuthUrl_swept|].
  unfold getStateCount. simpl.
  rewrite generateAuthUrl_over_expired; [apply map_size_singleton| |done].
  do 3 (apply (generateAuthUrl_entries (λ e, t4' - timestamp e > maxAge config));
        [|done]).
  apply map_Forall_empty.
Qed.

(** C9 (a failed URL request leaves its state behind).  When the provider
    call of [generateAuthUrl] fails, [AuthenticationError] is thrown, and yet
    the fresh [state], registered before the call, is in the registry: the
    count is one more than that of the swept registry - one more than before
    when the sweep had nothing to remove - and the state validates true when
    presented within the timeout. *)
Theorem failed_url_request_leaves_state msal this state now now_sweep error :
  Msal.getAuthCodeUrl msal scopes (AZURE_REDIRECT_URI config) state = Throw error →
  stateStore this !! state = None →
  ¬ (now_sweep - now > maxAge config) →
  let result := generateAuthUrl config msal state now now_sweep this in
  result.1 = Throw (AuthenticationError "Failed to generate authorization URL")
  ∧ msalCalls result.2
    = msalCalls this ++ [Msal.GetAuthCodeUrl scopes (AZURE_REDIRECT_URI config) state]
  ∧ stateStore result.2 !! state = Some (issued now)
  ∧ getStateCount result.2
    = S (getStateCount (cleanExpiredStates config now_sweep this))
  ∧ (map_Forall (λ _ e, ¬ (now_sweep - timestamp e > maxAge config)) (stateStore this) →
     getStateCount result.2 = S (getStateCount this))
  ∧ (∀ now_v, now_v - now < maxAge config →
       (validateState config state now_v result.2).1 = Ok true).
Proof.
  intros Hfail Hfresh Hnew result.
  assert (Hstore : stateStore result.2
                   = <[state := issued now]> (filter (kept config now_sweep) (stateStore this))).
  { unfold result. rewrite generateAuthUrl_stateStore.
    by apply map_filter_insert_True. }
  assert (Hcount : getStateCount result.2
                   = S (getStateCount (cleanExpiredStates config now_sweep this))).
  { unfold getStateCount. rewrite Hstore, map_size_insert_None; [done|].
    by rewrite lookup_sweep, Hfresh. }
  assert (Hlook : stateStore result.2 !! state = Some (issued now)).
  { rewrite Hstore. apply lookup_insert_eq. }
  repeat split; try done.
  - unfold result, generateAuthUrl, mbind, eff_bind, modify, try_catch, msal_call.
    simpl. by rewrite Hfail.
  - unfold result, generateAuthUrl, mbind, eff_bind, modify, try_catch, msal_call.
    simpl. by rewrite Hfail.
  - intros Hall. rewrite Hcount. unfold getStateCount. simpl.
    rewrite map_filter_id; [done|]. intros k e Hk. by apply (Hall k).
  - intros now_v Hv. rewrite (validateState_present _ _ _ _ Hlook). simpl.
    by rewrite bool_decide_eq_true_2.
Qed.

(** C10 (the boundary age).  Validation tests [age < timeout], the sweep
    removes on [age > timeout].  An entry whose age equals the timeout fails
    validation, and yet the sweep leaves it in the registry, where it is
    counted; and it fails validation at every later clock too. *)
Theorem boundary_age_entry_lingers this state stored now :
  stateStore this !! state = Some stored →
  now - timestamp stored = maxAge config →
  (validateState config state now this).1 = Ok false
  ∧ stateStore (cleanExpiredStates config now this) !! state = Some stored
  ∧ (0 < getStateCount (cleanExpiredStates config now this))%nat
  ∧ (∀ now', now ≤ now' →
       (validateState config state now' (cleanExpiredStates config now this)).1
       = Ok false).
Proof.
  intros Hs Hage.
  assert (Hkept : stateStore (cleanExpiredStates config now this) !! state = Some stored).
  { simpl. rewrite lookup_sweep, Hs. case_decide; [lia|done]. }
  repeat split; try done.
  - rewrite (validateState_present _ _ _ _ Hs). simpl.
    rewrite bool_decide_eq_false_2; [done|lia].
  - unfold getStateCount.
    assert (size (stateStore (cleanExpiredStates config now this)) ≠ 0%nat); [|lia].
    apply (map_size_ne_0_lookup_2 _ state). by rewrite Hkept.
  - intros now' Hle. rewrite (validateState_present _ _ _ _ Hkept). simpl.
    rewrite bool_decide_eq_false_2; [done|lia].
Qed.

End Registry.

(** *** A completed callback, over the in-memory token manager *)

(** C7, as the code has it.  After a [handleCallback] with a valid state, a
    provider answer with a non-empty access token and at least one account,
    the call has returned and the token manager holds the provider's access
    token, the first account's [homeAccountId] as refresh token, the
    provider's expiry when there is one and it is not 0 and the clock plus one
    hour otherwise, and the provider's scopes joined by spaces when there are
    some and the string is not empty and the requested scopes otherwise. *)
Theorem callback_stores_tokens config msal (this : SecureOAuthClient.t MockTokenManager.t)
    code state stored now now_store response account accounts :
  stateStore this !! state = Some stored →
  now - timestamp stored < maxAge config →
  Msal.acquireTokenByCode msal code scopes (AZURE_REDIRECT_URI config)
  = Ok (Some response) →
  Msal.accessToken response ≠ "" →
  Msal.getAllAccounts msal = Ok (Some (account :: accounts)) →
  let result := handleCallback config msal code state now now_store this in
  result.1 = Ok tt
  ∧ tokenManager result.2
    = Some {| accessToken := Msal.accessToken response;
              refreshToken := Msal.homeAccountId account;
              expiresAt :=
                match Msal.expiresOn response with
                | Some expiry => if bool_decide (expiry = 0) then now_store + 3600000
                                 else expiry
                | None => now_store + 3600000
                end;
              scope :=
                match Msal.scopes response with
                | Some granted => if bool_decide (join granted = "") then join scopes
                                  else join granted
                | None => join scopes
                end |}.
Proof.
  intros Hs Hage Hresp Htoken Hacc result.
  unfold result, handleCallback, mbind, eff_bind.
  rewrite (validateState_present _ _ _ _ _ Hs).
  rewrite bool_decide_eq_true_2 by done. simpl.
  unfold try_catch, msal_call, on_tokenManager. simpl.
  rewrite Hresp. simpl.
  unfold falsy_string. rewrite bool_decide_eq_false_2 by done. simpl.
  rewrite Hacc. simpl. split; [done|].
  unfold or_number, or_string. by destruct (Msal.scopes response).
Qed.

Lemma callback_stores_tokens_witness :
  (handleCallback Fixtures.config (Fixtures.msal (Some 3601000)) "test-code" "5c1f"
     2000 2001 (Fixtures.client_issued (Some 3601000))).1 = Ok tt
  ∧ tokenManager
      (handleCallback Fixtures.config (Fixtures.msal (Some 3601000)) "test-code" "5c1f"
         2000 2001 (Fixtures.client_issued (Some 3601000))).2
    = Some {| accessToken := "test-access-token"; refreshToken := "test-account-id";
              expiresAt := 3601000;
              scope := "Tasks.Read User.Read offline_access" |}.
Proof.
  refine (callback_stores_tokens Fixtures.config (Fixtures.msal (Some 3601000))
            (Fixtures.client_issued (Some 3601000)) "test-code" "5c1f"
            (issued 1000) 2000 2001 (Fixtures.response (Some 3601000))
            Fixtures.account [] _ _ _ _ _).
  - vm_compute. reflexivity.
  - vm_compute. reflexivity.
  - reflexivity.
  - discriminate.
  - reflexivity.
Defined.

(** C7, as stated, fails when the provider's expiry is the timestamp 0: the
    callback succeeds and the stored set is not the specified one, for its
    [expiresAt] is the clock plus one hour. *)
Lemma callback_expiry_zero_counterexample :
  (handleCallback Fixtures.config (Fixtures.msal (Some 0)) "test-code" "5c1f"
     2000 2001 (Fixtures.client_issued (Some 0))).1 = Ok tt
  ∧ tokenManager
      (handleCallback Fixtures.config (Fixtures.msal (Some 0)) "test-code" "5c1f"
         2000 2001 (Fixtures.client_issued (Some 0))).2
    ≠ Some (specified_TokenSet (Fixtures.response (Some 0)) Fixtures.account 2001)
  ∧ expiresAt <$> tokenManager
      (handleCallback Fixtures.config (Fixtures.msal (Some 0)) "test-code" "5c1f"
         2000 2001 (Fixtures.client_issued (Some 0))).2
    = Some 3602001.
Proof. vm_compute. repeat split; [discriminate]. Qed.

(** *** Concrete runs of the registry claims *)

Lemma state_token_single_use_witness :
  (validateState Fixtures.config "5c1f" 240000
     (run Fixtures.config
        [TimerTick 60000; GenerateAuthUrl Fixtures.msal_down "77aa" 90000 90001]
        (Fixtures.client_issued None))).1 = Ok true
  ∧ (validateState Fixtures.config "5c1f" 240001
       (run Fixtures.config []
          (validateState Fixtures.config "5c1f" 240000
             (run Fixtures.config
                [TimerTick 60000; GenerateAuthUrl Fixtures.msal_down "77aa" 90000 90001]
                (Fixtures.client_issued None))).2)).1 = Ok false.
Proof.
  assert (Hclock : 1000 ≤ 240000) by lia.
  assert (Hops : Forall (λ op, ¬ issues "5c1f" op ∧ ¬ presents "5c1f" op
                               ∧ sweeps_by 240000 op)
                   [TimerTick 60000;
                    GenerateAuthUrl Fixtures.msal_down "77aa" 90000 90001]).
  { repeat constructor; simpl; try tauto; try discriminate; lia. }
  destruct (state_token_single_use Fixtures.config (Fixtures.msal None)
              Fixtures.client "5c1f" 1000 1000 _ 240000 Hclock Hops)
    as (Hfirst & _ & Hlater & _).
  split; [exact Hfirst|]. apply Hlater. constructor.
Defined.

Lemma expired_state_rejected_and_removed_witness :
  (validateState Fixtures.config "5c1f" 361000
     (run Fixtures.config [GenerateAuthUrl (Fixtures.msal None) "77aa" 90000 90001]
        (Fixtures.client_issued None))).1 = Ok false.
Proof.
  assert (Hops : Forall (λ op, ¬ issues "5c1f" op)
                   [GenerateAuthUrl (Fixtures.msal None) "77aa" 90000 90001]).
  { repeat constructor. simpl. discriminate. }
  assert (Hold : 361000 - 1000 > maxAge Fixtures.config)
    by (vm_compute; reflexivity).
  exact (proj1 (expired_state_rejected_and_removed Fixtures.config (Fixtures.msal None)
                  Fixtures.client "5c1f" 1000 1000 _ 361000 Hops Hold)).
Defined.

Lemma invalid_state_never_exchanged_witness :
  (handleCallback Fixtures.config (Fixtures.msal None) "test-code" "invalid-state"
     2000 2001 (Fixtures.client_issued None)).1
  = Throw (AuthorizationError "Invalid or expired state token")
  ∧ msalCalls
      (handleCallback Fixtures.config (Fixtures.msal None) "test-code" "invalid-state"
         2000 2001 (Fixtures.client_issued None)).2
    = msalCalls (Fixtures.client_issued None).
Proof.
  assert (Hinv : invalid_state Fixtures.config "invalid-state" 2000
                   (Fixtures.client_issued None)).
  { left. vm_compute. reflexivity. }
  destruct (invalid_state_never_exchanged Fixtures.config (Fixtures.msal None)
              (Fixtures.client_issued None) "test-code" "invalid-state" 2000 2001 Hinv)
    as (Hthrow & Hcalls & _).
  split; [exact Hthrow | exact Hcalls].
Defined.

Lemma issue_sweeps_expired_witness :
  getStateCount
    (run Fixtures.config
       [GenerateAuthUrl (Fixtures.msal None) "01aa" 1000 1000;
        GenerateAuthUrl (Fixtures.msal None) "02bb" 1001 1001;
        GenerateAuthUrl (Fixtures.msal None) "03cc" 1002 1003;
        GenerateAuthUrl (Fixtures.msal None) "04dd" 361002 361004]
       Fixtures.client)
  = 1%nat.
Proof.
  refine (proj2 (issue_sweeps_expired Fixtures.config None
                   (Fixtures.msal None) (Fixtures.msal None) (Fixtures.msal None)
                   (Fixtures.msal None) "01aa" "02bb" "03cc" "04dd"
                   1000 1000 1001 1001 1002 1003 361002 361004 _ _ _ _));
    vm_compute; congruence.
Defined.

Lemma failed_url_request_leaves_state_witness :
  (generateAuthUrl Fixtures.config Fixtures.msal_down "5c1f" 1000 1000 Fixtures.client).1
  = Throw (AuthenticationError "Failed to generate authorization URL")
  ∧ getStateCount
      (generateAuthUrl Fixtures.config Fixtures.msal_down "5c1f" 1000 1000
         Fixtures.client).2
    = S (getStateCount Fixtures.client)
  ∧ (validateState Fixtures.config "5c1f" 2000
       (generateAuthUrl Fixtures.config Fixtures.msal_down "5c1f" 1000 1000
          Fixtures.client).2).1 = Ok true.
Proof.
  assert (Hfail : Msal.getAuthCodeUrl Fixtures.msal_down
                    scopes
                    (AZURE_REDIRECT_URI Fixtures.config) "5c1f"
                  = Throw (ForeignError "MSAL error")) by reflexivity.
  assert (Hfresh : stateStore Fixtures.client !! "5c1f" = None) by reflexivity.
  assert (Hnew : ¬ (1000 - 1000 > maxAge Fixtures.config))
    by (vm_compute; congruence).
  destruct (failed_url_request_leaves_state Fixtures.config Fixtures.msal_down
              Fixtures.client "5c1f" 1000 1000 _ Hfail Hfresh Hnew)
    as (Hthrow & _ & _ & _ & Hcount & Hvalid).
  split; [exact Hthrow|]. split.
  - apply Hcount. apply map_Forall_empty.
  - apply Hvalid. vm_compute. reflexivity.
Defined.

Lemma boundary_age_entry_lingers_witness :
  (validateState Fixtures.config "5c1f" 301000 (Fixtures.client_issued None)).1 = Ok false
  ∧ stateStore (cleanExpiredStates Fixtures.config 301000 (Fixtures.client_issued None))
      !! "5c1f" = Some (issued 1000).
Proof.
  assert (Hs : stateStore (Fixtures.client_issued None) !! "5c1f" = Some (issued 1000))
    by (vm_compute; reflexivity).
  assert (Hage : 301000 - timestamp (issued 1000)
                 = maxAge Fixtures.config)
    by reflexivity.
  destruct (boundary_age_entry_lingers Fixtures.config (Fixtures.client_issued None)
              "5c1f" (issued 1000) 301000 Hs Hage)
    as (Hfalse & Hkept & _).
  split; [exact Hfalse | exact Hkept].
Defined.

End RegistryFacts.

(** * Properties of the token refresher *)

Module RefresherFacts.
Import TokenRefresher.

Section Refresher.

Context {M : Type} `{ITokenManager M}.

Implicit Types (w : World M) (tm : M) (tokens : TokenSet).

Lemma schedule_app evs1 evs2 w :
  run (evs1 ++ evs2) w = w' ← run evs1 w; run evs2 w'.
Proof.
  revert w. induction evs1 as [|ev evs1 IH]; intros w; simpl; [done|].
  destruct (step w ev) as [w1|]; simpl; [apply IH|done].
Qed.

Lemma needs_refresh_test tokens now :
  needs_refresh tokens now →
  bool_decide (expiresAt tokens - now > expiryBuffer) = false.
Proof. apply bool_decide_eq_false_2. Qed.

(** A caller that has not returned is one of the new callers. *)
Lemma lookup_new_caller (ks0 ks : list Caller) c k :
  Forall returned ks0 →
  (ks0 ++ ks) !! c = Some k →
  ¬ returned k →
  (length ks0 ≤ c)%nat ∧ ks !! (c - length ks0)%nat = Some k.
Proof.
  intros Hret Hc Hk. apply lookup_app_Some in Hc as [Hold | Hnew]; [|done].
  by pose proof (Forall_lookup_1 _ _ _ _ Hret Hold).
Qed.

(** *** While the callers arrive *)

Lemma arriving_idle w0 tokens : idle w0 → arriving w0 tokens w0.
Proof.
  intros [Hidle _]. split; [done|]. exists []. split; [by rewrite app_nil_r|].
  left. by repeat split.
Qed.

Lemma arriving_step w0 tokens w ev w' :
  Forall returned (callers w0) →
  getTokens (tokenManager w0) = Ok tokens →
  arriving w0 tokens w →
  arrival tokens ev →
  step w ev = Some w' →
  arriving w0 tokens w'.
Proof.
  intros Hret Hget (Htm & ks & Hks & Hw) Hev Hstep.
  destruct ev as [|c now| | |]; simpl in Hev; try done; simpl in Hstep.
  - (* Invoke *)
    injection Hstep as <-. split; [done|]. unfold invoke; simpl.
    rewrite Htm, Hget, Hks, <- app_assoc.
    exists (ks ++ [AwaitingTokens (Ok tokens)]). split; [done|].
    destruct Hw as [(Hp & Hps & Hcalls & Hall) | (Hp & Hps & Hcalls & Hall & c & Hc)].
    + left. repeat split; try done. apply Forall_app. split; [done|].
      by constructor.
    + right. repeat split; try done.
      * apply Forall_app. split; [done|]. constructor; [by left|constructor].
      * exists c. by apply lookup_app_l_Some.
  - (* ResumeWithTokens *)
    unfold resume_with_tokens in Hstep.
    destruct (callers w !! c) as [k|] eqn:Hc; [|done].
    destruct k as [r|p|p|o]; try done.
    rewrite Hks in Hc.
    apply lookup_new_caller in Hc as [Hge Hc]; [|done|by intros []].
    assert (Hk : AwaitingTokens r = AwaitingTokens (Ok tokens)).
    { destruct Hw as [(_ & _ & _ & Hall) | (_ & _ & _ & Hall & _)].
      - by apply (Forall_lookup_1 _ _ _ _ Hall Hc).
      - by destruct (Forall_lookup_1 _ _ _ _ Hall Hc) as [? | [? | ?]]. }
    injection Hk as ->.
    rewrite (needs_refresh_test _ _ Hev) in Hstep.
    destruct Hw as [(Hp & Hps & Hcalls & Hall) | (Hp & Hps & Hcalls & Hall & c' & Hc')].
    + rewrite Hp in Hstep. simpl in Hstep. injection Hstep as <-.
      split; [done|]. simpl. rewrite Hks, insert_app_r_alt by done.
      eexists. split; [done|]. right. rewrite Hps, Hcalls.
      repeat split; try done.
      * apply Forall_insert; [|by right; left].
        eapply Forall_impl; [exact Hall|]. intros k ->. by left.
      * exists (c - length (callers w0))%nat.
        apply list_lookup_insert_eq. by eapply lookup_lt_Some.
    + rewrite Hp in Hstep. injection Hstep as <-.
      split; [done|]. simpl. rewrite Hks, insert_app_r_alt by done.
      eexists. split; [done|]. right. repeat split; try done.
      * apply Forall_insert; [done|]. by right; right.
      * exists c'. rewrite list_lookup_insert_ne; [done|].
        intros <-. rewrite Hc in Hc'. discriminate.
Qed.

Lemma arriving_run w0 tokens evs w w' :
  Forall returned (callers w0) →
  getTokens (tokenManager w0) = Ok tokens →
  Forall (arrival tokens) evs →
  arriving w0 tokens w →
  run evs w = Some w' →
  arriving w0 tokens w'.
Proof.
  intros Hret Hget Hevs. revert w.
  induction Hevs as [|ev evs Hev _ IH]; intros w Hw Hrun; simpl in Hrun.
  - by injection Hrun as <-.
  - destruct (step w ev) as [w1|] eqn:Hstep; [|done]. simpl in Hrun.
    eapply IH; [|done]. by eapply arriving_step.
Qed.

(** *** The provider answers *)

Lemma arriving_answer w0 tokens w response now w' :
  arriving w0 tokens w →
  step w (ProviderAnswers (length (promises w0)) response now) = Some w' →
  delivering w0 (refreshAccessToken_receive response now (tokenManager w0)).2 tokens
    (refreshAccessToken_receive response now (tokenManager w0)).1 w'.
Proof.
  intros (Htm & ks & Hks & Hw) Hstep. simpl in Hstep.
  unfold provider_answers in Hstep.
  destruct Hw as [(_ & Hps & _) | (Hp & Hps & Hcalls & Hall & c & Hc)].
  { rewrite Hps, lookup_ge_None_2 in Hstep; done. }
  rewrite Hps, list_lookup_middle, Htm in Hstep by done.
  destruct (refreshAccessToken_receive response now (tokenManager w0))
    as [outcome tm'].
  injection Hstep as <-. simpl. repeat split; try done.
  - simpl. rewrite insert_app_r_alt by done. by rewrite Nat.sub_diag.
  - exists ks. repeat split; try done.
    + eapply Forall_impl; [exact Hall|]. simpl. intros k Hk. tauto.
    + right. by exists c.
    + apply lookup_lt_Some in Hc. lia.
Qed.

(** *** While the outcome is delivered *)

Lemma delivering_step w0 tm tokens outcome w ev w' :
  Forall returned (callers w0) →
  delivering w0 tm tokens outcome w →
  delivery ev →
  step w ev = Some w' →
  delivering w0 tm tokens outcome w'.
Proof.
  intros Hret (Htm & Hps & Hcalls & ks & Hks & Hall & Hmark & Hlen) Hev Hstep.
  destruct ev as [| | |c|c]; simpl in Hev; try done; simpl in Hstep.
  - (* OwnerResumes *)
    unfold owner_resumes in Hstep.
    destruct (callers w !! c) as [[| p | |]|] eqn:Hc; try done.
    rewrite Hks in Hc.
    apply lookup_new_caller in Hc as [Hge Hc]; [|done|by intros []].
    assert (p = length (promises w0)) as ->.
    { destruct (Forall_lookup_1 _ _ _ _ Hall Hc) as [? | [? | [? | ?]]]; congruence. }
    rewrite Hps, list_lookup_middle in Hstep by done.
    injection Hstep as <-. repeat split; try done; simpl.
    rewrite Hks, insert_app_r_alt by done.
    eexists. split; [done|]. repeat split.
    + apply Forall_insert; [done|]. by right; right; right.
    + by left.
    + by rewrite length_insert.
  - (* WaiterResumes *)
    unfold waiter_resumes in Hstep.
    destruct (callers w !! c) as [[| | p |]|] eqn:Hc; try done.
    rewrite Hks in Hc.
    apply lookup_new_caller in Hc as [Hge Hc]; [|done|by intros []].
    assert (p = length (promises w0)) as ->.
    { destruct (Forall_lookup_1 _ _ _ _ Hall Hc) as [? | [? | [? | ?]]]; congruence. }
    rewrite Hps, list_lookup_middle in Hstep by done.
    injection Hstep as <-. repeat split; try done; simpl.
    rewrite Hks, insert_app_r_alt by done.
    eexists. split; [done|]. repeat split.
    + apply Forall_insert; [done|]. by right; right; right.
    + destruct Hmark as [Hnone | [c' Hc']]; [by left|]. right.
      exists c'. rewrite list_lookup_insert_ne; [done|].
      intros <-. rewrite Hc in Hc'. discriminate.
    + by rewrite length_insert.
Qed.

Lemma delivering_run w0 tm tokens outcome evs w w' :
  Forall returned (callers w0) →
  Forall delivery evs →
  delivering w0 tm tokens outcome w →
  run evs w = Some w' →
  delivering w0 tm tokens outcome w'.
Proof.
  intros Hret Hevs. revert w.
  induction Hevs as [|ev evs Hev _ IH]; intros w Hw Hrun; simpl in Hrun.
  - by injection Hrun as <-.
  - destruct (step w ev) as [w1|] eqn:Hstep; [|done]. simpl in Hrun.
    eapply IH; [|done]. by eapply delivering_step.
Qed.

(** When everybody has returned, every new caller holds the outcome and the
    marker is clear. *)
Lemma delivering_all_returned w0 tm tokens outcome w :
  delivering w0 tm tokens outcome w →
  Forall returned (callers w) →
  ∃ ks, callers w = callers w0 ++ ks
        ∧ (0 < length ks)%nat
        ∧ Forall (λ k, k = Returned outcome) ks
        ∧ refreshPromise w = None.
Proof.
  intros (_ & _ & _ & ks & Hks & Hall & Hmark & Hlen) Hret.
  rewrite Hks in Hret. apply Forall_app in Hret as [_ Hret].
  exists ks. repeat split; try done.
  - apply Forall_lookup. intros c k Hc.
    pose proof (Forall_lookup_1 _ _ _ _ Hall Hc) as Hk.
    pose proof (Forall_lookup_1 _ _ _ _ Hret Hc) as Hr.
    destruct Hk as [-> | [-> | [-> | ->]]]; done.
  - destruct Hmark as [Hnone | [c Hc]]; [done|].
    by pose proof (Forall_lookup_1 _ _ _ _ Hret Hc).
Qed.

(** *** A call on an idle refresher whose tokens need a refresh *)

Lemma idle_call_starts_refresh w tokens now :
  refreshPromise w = None →
  getTokens (tokenManager w) = Ok tokens →
  needs_refresh tokens now →
  ∃ w', run [Invoke; ResumeWithTokens (length (callers w)) now] w = Some w'
        ∧ msalCalls w' = msalCalls w ++ [refresh_request tokens]
        ∧ refreshPromise w' = Some (length (promises w))
        ∧ promises w' = promises w ++ [None]
        ∧ tokenManager w' = tokenManager w
        ∧ callers w' = callers w ++ [AwaitingOwnRefresh (length (promises w))].
Proof.
  intros Hidle Hget Hneed. simpl. unfold resume_with_tokens, invoke. simpl.
  rewrite list_lookup_middle by done. rewrite Hget.
  rewrite (needs_refresh_test _ _ Hneed), Hidle. simpl.
  eexists. split; [done|]. simpl. repeat split; try done.
  rewrite insert_app_r_alt by done. by rewrite Nat.sub_diag.
Qed.

(** *** The burst schedule runs to completion, for every number of callers *)

Lemma run_invokes n tm mark ps calls ks :
  run (replicate n Invoke)
    {| tokenManager := tm; refreshPromise := mark; promises := ps;
       msalCalls := calls; callers := ks |}
  = Some {| tokenManager := tm; refreshPromise := mark; promises := ps;
            msalCalls := calls;
            callers := ks ++ replicate n (AwaitingTokens (getTokens tm)) |}.
Proof.
  revert ks. induction n as [|n IH]; intros ks; simpl.
  - by rewrite app_nil_r.
  - unfold invoke; simpl. rewrite IH. by rewrite <- app_assoc.
Qed.

Lemma run_join n tm p ps calls pre tokens now :
  needs_refresh tokens now →
  run ((λ c, ResumeWithTokens c now) <$> seq (length pre) n)
    {| tokenManager := tm; refreshPromise := Some p; promises := ps;
       msalCalls := calls;
       callers := pre ++ replicate n (AwaitingTokens (Ok tokens)) |}
  = Some {| tokenManager := tm; refreshPromise := Some p; promises := ps;
            msalCalls := calls;
            callers := pre ++ replicate n (AwaitingSharedRefresh p) |}.
Proof.
  intros Hneed. revert pre. induction n as [|n IH]; intros pre; simpl; [done|].
  unfold resume_with_tokens; simpl.
  rewrite list_lookup_middle by done.
  rewrite (needs_refresh_test _ _ Hneed). simpl.
  unfold set_caller; simpl.
  rewrite insert_app_r_alt by done. rewrite Nat.sub_diag. simpl.
  specialize (IH (pre ++ [AwaitingSharedRefresh p])).
  rewrite length_app, Nat.add_1_r, <- !app_assoc in IH. exact IH.
Qed.

Lemma run_deliver n tm mark ps calls pre p outcome :
  ps !! p = Some (Some outcome) →
  run (WaiterResumes <$> seq (length pre) n)
    {| tokenManager := tm; refreshPromise := mark; promises := ps;
       msalCalls := calls;
       callers := pre ++ replicate n (AwaitingSharedRefresh p) |}
  = Some {| tokenManager := tm; refreshPromise := mark; promises := ps;
            msalCalls := calls;
            callers := pre ++ replicate n (Returned outcome) |}.
Proof.
  intros Hp. revert pre. induction n as [|n IH]; intros pre; simpl; [done|].
  unfold waiter_resumes; simpl.
  rewrite list_lookup_middle by done. rewrite Hp. simpl.
  unfold set_caller; simpl.
  rewrite insert_app_r_alt by done. rewrite Nat.sub_diag. simpl.
  specialize (IH (pre ++ [Returned outcome])).
  rewrite length_app, Nat.add_1_r, <- !app_assoc in IH. exact IH.
Qed.

(** For every [n], the burst of [S n] calls on a refresher with no refresh
    in flight, whose tokens need a refresh, runs to the end: one more
    exchange, every new caller returned with its outcome, the marker clear. *)
Lemma burst_runs n tm ps calls ks0 tokens now response now_refresh :
  getTokens tm = Ok tokens →
  needs_refresh tokens now →
  run (burst {| tokenManager := tm; refreshPromise := None; promises := ps;
                msalCalls := calls; callers := ks0 |}
         (S n) now response now_refresh)
    {| tokenManager := tm; refreshPromise := None; promises := ps;
       msalCalls := calls; callers := ks0 |}
  = Some {| tokenManager := (refreshAccessToken_receive response now_refresh tm).2;
            refreshPromise := None;
            promises :=
              ps ++ [Some (refreshAccessToken_receive response now_refresh tm).1];
            msalCalls := calls ++ [refresh_request tokens];
            callers :=
              ks0 ++ replicate (S n)
                       (Returned (refreshAccessToken_receive response now_refresh tm).1) |}.
Proof.
  intros Hget Hneed. unfold burst. cbn [callers promises].
  rewrite schedule_app, run_invokes, Hget. cbn [mbind option_bind].
  rewrite schedule_app. cbn [seq fmap list_fmap run replicate].
  assert (Hfirst :
    step {| tokenManager := tm; refreshPromise := None; promises := ps;
            msalCalls := calls;
            callers := ks0 ++ AwaitingTokens (Ok tokens)
                              :: replicate n (AwaitingTokens (Ok tokens)) |}
      (ResumeWithTokens (length ks0) now)
    = Some {| tokenManager := tm; refreshPromise := Some (length ps);
              promises := ps ++ [None];
              msalCalls := calls ++ [refresh_request tokens];
              callers := (ks0 ++ [AwaitingOwnRefresh (length ps)])
                         ++ replicate n (AwaitingTokens (Ok tokens)) |}).
  { simpl. unfold resume_with_tokens. simpl.
    rewrite list_lookup_middle by done.
    rewrite (needs_refresh_test _ _ Hneed). unfold set_caller. simpl.
    rewrite insert_app_r_alt by done. rewrite Nat.sub_diag. simpl.
    by rewrite <- app_assoc. }
  rewrite Hfirst. clear Hfirst. cbn [mbind option_bind].
  pose proof (run_join n tm (length ps) (ps ++ [None])
                (calls ++ [refresh_request tokens])
                (ks0 ++ [AwaitingOwnRefresh (length ps)]) tokens now Hneed) as Hjoin.
  rewrite length_app, Nat.add_1_r in Hjoin.
  rewrite Hjoin. clear Hjoin. cbn [mbind option_bind].
  destruct (refreshAccessToken_receive response now_refresh tm)
    as [outcome tm'] eqn:Hreceive.
  assert (Hanswer :
    step {| tokenManager := tm; refreshPromise := Some (length ps);
            promises := ps ++ [None];
            msalCalls := calls ++ [refresh_request tokens];
            callers := (ks0 ++ [AwaitingOwnRefresh (length ps)])
                       ++ replicate n (AwaitingSharedRefresh (length ps)) |}
      (ProviderAnswers (length ps) response now_refresh)
    = Some {| tokenManager := tm'; refreshPromise := Some (length ps);
              promises := ps ++ [Some outcome];
              msalCalls := calls ++ [refresh_request tokens];
              callers := (ks0 ++ [AwaitingOwnRefresh (length ps)])
                         ++ replicate n (AwaitingSharedRefresh (length ps)) |}).
  { simpl. unfold provider_answers. simpl.
    rewrite list_lookup_middle by done. rewrite Hreceive.
    rewrite insert_app_r_alt by done. by rewrite Nat.sub_diag. }
  rewrite Hanswer. clear Hanswer. cbn [mbind option_bind].
  assert (Howner :
    step {| tokenManager := tm'; refreshPromise := Some (length ps);
            promises := ps ++ [Some outcome];
            msalCalls := calls ++ [refresh_request tokens];
            callers := (ks0 ++ [AwaitingOwnRefresh (length ps)])
                       ++ replicate n (AwaitingSharedRefresh (length ps)) |}
      (OwnerResumes (length ks0))
    = Some {| tokenManager := tm'; refreshPromise := None;
              promises := ps ++ [Some outcome];
              msalCalls := calls ++ [refresh_request tokens];
              callers := (ks0 ++ [Returned outcome])
                         ++ replicate n (AwaitingSharedRefresh (length ps)) |}).
  { rewrite <- !app_assoc. simpl. unfold owner_resumes. simpl.
    rewrite list_lookup_middle by done.
    rewrite list_lookup_middle by done.
    rewrite insert_app_r_alt by done. by rewrite Nat.sub_diag. }
  rewrite Howner. clear Howner. cbn [mbind option_bind].
  replace (S n - 1)%nat with n by lia.
  pose proof (run_deliver n tm' None (ps ++ [Some outcome])
                (calls ++ [refresh_request tokens])
                (ks0 ++ [Returned outcome]) (length ps) outcome) as Hdel.
  rewrite length_app, Nat.add_1_r in Hdel.
  rewrite Hdel by (by apply list_lookup_middle).
  by rewrite <- app_assoc.
Qed.

(** *** The claims on the refresher *)


(** C6 (fast path).  When the manager holds tokens whose remaining lifetime
    at the clock of the call exceeds the buffer of 5 minutes, the caller
    returns the stored access token at its first resumption, and nothing
    else changes: no call on the provider, the same token manager, the same
    marker and promises.  In particular tokens that expire in 10 minutes
    send nothing to the provider, while tokens that expire in 4 minutes, on
    a refresher with no refresh in flight, send one refresh request. *)
Theorem fast_path w tokens now response now_refresh :
  getTokens (tokenManager w) = Ok tokens →
  expiresAt tokens - now > expiryBuffer →
  (∃ w', resume_with_tokens (length (callers w)) now (invoke w) = Some w'
         ∧ getValidAccessToken now response now_refresh w = Some w'
         ∧ callers w' = callers w ++ [Returned (Ok (accessToken tokens))]
         ∧ msalCalls w' = msalCalls w
         ∧ tokenManager w' = tokenManager w
         ∧ refreshPromise w' = refreshPromise w
         ∧ promises w' = promises w)
  ∧ (∀ w10 tokens10 now10,
       getTokens (tokenManager w10) = Ok tokens10 →
       expiresAt tokens10 = now10 + 10 * 60 * 1000 →
       ∃ w', resume_with_tokens (length (callers w10)) now10 (invoke w10) = Some w'
             ∧ callers w' = callers w10 ++ [Returned (Ok (accessToken tokens10))]
             ∧ msalCalls w' = msalCalls w10)
  ∧ (∀ w4 tokens4 now4,
       getTokens (tokenManager w4) = Ok tokens4 →
       expiresAt tokens4 = now4 + 4 * 60 * 1000 →
       ∃ w' p, resume_with_tokens (length (callers w4)) now4 (invoke w4) = Some w'
               ∧ ((refreshPromise w4 = None
                   ∧ callers w' = callers w4 ++ [AwaitingOwnRefresh p]
                   ∧ msalCalls w' = msalCalls w4 ++ [refresh_request tokens4])
                  ∨ (refreshPromise w4 = Some p
                     ∧ callers w' = callers w4 ++ [AwaitingSharedRefresh p]
                     ∧ msalCalls w' = msalCalls w4))).
Proof.
  assert (Hfast : ∀ w tokens now,
            getTokens (tokenManager w) = Ok tokens →
            expiresAt tokens - now > expiryBuffer →
            resume_with_tokens (length (callers w)) now (invoke w)
            = Some {| tokenManager := tokenManager w;
                      refreshPromise := refreshPromise w;
                      promises := promises w; msalCalls := msalCalls w;
                      callers := callers w ++ [Returned (Ok (accessToken tokens))] |}).
  { clear. intros w tokens now Hget Hlong.
    unfold resume_with_tokens, invoke. simpl.
    rewrite list_lookup_middle by done. rewrite Hget.
    rewrite bool_decide_eq_true_2 by done. unfold set_caller. simpl.
    rewrite insert_app_r_alt by done. by rewrite Nat.sub_diag. }
  intros Hget Hlong. repeat split.
  - eexists. split; [by apply Hfast|]. repeat split; try done.
    unfold getValidAccessToken. rewrite (Hfast _ _ _ Hget Hlong). simpl.
    by rewrite list_lookup_middle.
  - intros w10 tokens10 now10 Hget10 Hexp.
    eexists. split; [apply (Hfast _ _ _ Hget10)|by split].
    rewrite Hexp. unfold expiryBuffer. lia.
  - intros w4 tokens4 now4 Hget4 Hexp.
    assert (Hneed : needs_refresh tokens4 now4).
    { unfold needs_refresh, expiryBuffer. rewrite Hexp. lia. }
    destruct (refreshPromise w4) as [p|] eqn:Hmark.
    + exists (set_caller (length (callers w4)) (AwaitingSharedRefresh p) (invoke w4)), p.
      unfold resume_with_tokens, invoke. simpl.
      rewrite list_lookup_middle by done. rewrite Hget4.
      rewrite (needs_refresh_test _ _ Hneed), Hmark. split; [done|]. right.
      unfold set_caller. simpl.
      rewrite insert_app_r_alt by done. by rewrite Nat.sub_diag.
    + destruct (idle_call_starts_refresh w4 tokens4 now4 Hmark Hget4 Hneed)
        as (w' & Hrun & Hcalls & _ & _ & _ & Hks).
      exists w', (length (promises w4)). simpl in Hrun.
      destruct (resume_with_tokens _ _ _) as [w1|]; [|done].
      simpl in Hrun. injection Hrun as ->. split; [done|]. by left.
Qed.

End Refresher.

(** *** Over the in-memory token manager *)

(** A refresh that the provider rejects, or answers with [null], clears the
    stored tokens and rejects with [AuthenticationError]. *)
Lemma refresh_failure_clears (response : Result (option Msal.AuthenticationResult))
    now (tm : MockTokenManager.t) :
  (∃ e, response = Throw e) ∨ response = Ok None →
  refreshAccessToken_receive response now tm
  = (Throw (AuthenticationError "Session expired. Please re-authenticate."), None).
Proof. by intros [[e ->] | ->]. Qed.

(** A refresh that the provider answers with any record, whatever its access
    token, is a success: the token is written over the stored one and
    returned. *)
Lemma refresh_success_updates (response : Msal.AuthenticationResult) now tokens :
  refreshAccessToken_receive (Ok (Some response)) now (Some tokens)
  = (Ok (Msal.accessToken response),
     Some {| accessToken := Msal.accessToken response;
             refreshToken := refreshToken tokens;
             expiresAt := or_number (Msal.expiresOn response) (now + 3600000);
             scope := scope tokens |}).
Proof. reflexivity. Qed.

(** C2, where the code departs from it.  The provider answers a refresh with
    an empty access token.  [getValidAccessToken] returns the empty string,
    and the token manager holds a token set with an empty [accessToken]: the
    tokens are not cleared and no [AuthenticationError] is thrown. *)
Theorem empty_access_token_is_persisted :
  getValidAccessToken 1000
    (Ok (Some {| Msal.accessToken := ""; Msal.expiresOn := None;
                 Msal.scopes := None |}))
    2000 (new (Some (Fixtures.tokens 121000)))
  = Some {| tokenManager :=
              Some {| accessToken := ""; refreshToken := "refresh-token";
                      expiresAt := 3602000; scope := "Tasks.Read User.Read" |};
            refreshPromise := None;
            promises := [Some (Ok "")];
            msalCalls := [Msal.AcquireTokenByRefreshToken "refresh-token"
                            ["Tasks.Read"; "User.Read"]];
            callers := [Returned (Ok "")] |}.
Proof. reflexivity. Qed.


(** *** Concrete runs of the refresher claims *)


Lemma fast_path_witness :
  ∃ w' : World MockTokenManager.t,
    getValidAccessToken 1000 (Throw (ForeignError "unused")) 2000
      (new (Some (Fixtures.tokens 601000))) = Some w'
    ∧ callers w' = [Returned (Ok "old-token")]
    ∧ msalCalls w' = []
    ∧ tokenManager w' = Some (Fixtures.tokens 601000).
Proof.
  assert (Hget : getTokens
                   (tokenManager (new (Some (Fixtures.tokens 601000))))
                 = Ok (Fixtures.tokens 601000)) by reflexivity.
  assert (Hlong : expiresAt (Fixtures.tokens 601000) - 1000 > expiryBuffer)
    by (vm_compute; reflexivity).
  destruct (fast_path (new (Some (Fixtures.tokens 601000))) (Fixtures.tokens 601000)
              1000 (Throw (ForeignError "unused")) 2000 Hget Hlong)
    as ((w' & _ & Hrun & Hks & Hcalls & Htm & _) & _).
  exists w'. split; [exact Hrun|]. split; [exact Hks|]. split; [exact Hcalls|].
  exact Htm.
Defined.

End RefresherFacts.

(** * Further properties of the authorization-state registry *)

Module RegistryExtras.
Import SecureOAuthClient SecureOAuthClientMore RegistryFacts.

Section Registry.

Context {M : Type} `{ITokenManager M}.
Variable config : Environment.

Implicit Types (this : SecureOAuthClient.t M) (state : string) (now : Z).

(** X1.  A sweep never removes a state that is still valid: an entry whose
    age is below the timeout at some clock survives every sweep made by an
    earlier or equal clock, and validates true at that clock afterwards. *)
Theorem sweep_spares_valid_state this state stored now_sweep now_v :
  stateStore this !! state = Some stored →
  now_sweep ≤ now_v →
  now_v - timestamp stored < maxAge config →
  stateStore (cleanExpiredStates config now_sweep this) !! state = Some stored
  ∧ (validateState config state now_v (cleanExpiredStates config now_sweep this)).1
    = Ok true.
Proof.
  intros Hs Hle Hage.
  assert (Hkept : stateStore (cleanExpiredStates config now_sweep this) !! state
                  = Some stored).
  { simpl. rewrite lookup_sweep, Hs. case_decide; [lia|done]. }
  split; [done|].
  rewrite (validateState_present _ _ _ _ _ Hkept). simpl.
  by rewrite bool_decide_eq_true_2.
Qed.

(** X2.  A callback whose state is valid but whose provider exchange fails
    throws the generic [AuthenticationError], leaves the token manager as it
    was, and has nevertheless consumed the state: the same state presented
    again is rejected with [AuthorizationError], whatever the provider would
    answer then. *)
Theorem failed_exchange_consumes_state msal this code state stored now now_store :
  stateStore this !! state = Some stored →
  now - timestamp stored < maxAge config →
  exchange_fails config msal code →
  let result := handleCallback config msal code state now now_store this in
  result.1 = Throw (AuthenticationError "Failed to complete authentication")
  ∧ tokenManager result.2 = tokenManager this
  ∧ stateStore result.2 !! state = None
  ∧ (∀ msal' code' now' now_store',
       (handleCallback config msal' code' state now' now_store' result.2).1
       = Throw (AuthorizationError "Invalid or expired state token")).
Proof.
  intros Hs Hage Hfail result.
  assert (Hgone : stateStore result.2 !! state = None).
  { unfold result. rewrite handleCallback_stateStore. apply lookup_delete_eq. }
  assert (Hres : result.1 = Throw (AuthenticationError "Failed to complete authentication")
                 ∧ tokenManager result.2 = tokenManager this).
  { unfold result, handleCallback, mbind, eff_bind.
    rewrite (validateState_present _ _ _ _ _ Hs).
    rewrite bool_decide_eq_true_2 by done. simpl.
    unfold try_catch, mbind, eff_bind, msal_call, on_tokenManager, throw. simpl.
    unfold exchange_fails in Hfail.
    destruct (Msal.acquireTokenByCode msal _ _ _) as [[response|]|]; simpl; try done.
    unfold falsy_string.
    destruct Hfail as [Hempty | Hacc].
    { by rewrite bool_decide_eq_true_2. }
    case_bool_decide; simpl; [done|].
    by destruct (Msal.getAllAccounts msal) as [[[|account accounts]|]|]. }
  destruct Hres as [Hthrow Htm]. split_and!; try done.
  intros. rewrite handleCallback_rejects; [done|].
  by rewrite validateState_absent.
Qed.

(** X3.  The client only ever throws its three fixed errors, whatever the
    provider and the token manager throw: [generateAuthUrl] returns the URL
    the provider answers its request with, together with the state it was
    given, and throws the generic [AuthenticationError] when the provider
    throws; [handleCallback] returns, or throws the [AuthorizationError] of
    a rejected state, or the generic [AuthenticationError]. *)
Theorem client_errors_are_generic msal this code state now now_sweep now_store :
  (generateAuthUrl config msal state now now_sweep this).1
  = match Msal.getAuthCodeUrl msal scopes (AZURE_REDIRECT_URI config) state with
    | Ok url' => Ok {| url := url'; state := state |}
    | Throw _ => Throw (AuthenticationError "Failed to generate authorization URL")
    end
  ∧ ((handleCallback config msal code state now now_store this).1 = Ok tt
     ∨ (handleCallback config msal code state now now_store this).1
       = Throw (AuthorizationError "Invalid or expired state token")
     ∨ (handleCallback config msal code state now now_store this).1
       = Throw (AuthenticationError "Failed to complete authentication")).
Proof.
  split.
  - unfold generateAuthUrl, mbind, eff_bind, modify, try_catch, msal_call. simpl.
    by destruct (Msal.getAuthCodeUrl msal _ _ _).
  - unfold handleCallback, mbind, eff_bind.
    destruct (validateState_never_throws config this state now) as [[] Hb];
      destruct (validateState config state now this) as [r this'];
      simpl in Hb; subst r; simpl; [|by auto].
    unfold try_catch, mbind, eff_bind, msal_call, on_tokenManager, throw. simpl.
    destruct (Msal.acquireTokenByCode msal _ _ _) as [[response|]|]; simpl; auto.
    destruct (falsy_string _); simpl; auto.
    destruct (Msal.getAllAccounts msal) as [[[|account accounts]|]|]; simpl; auto.
    destruct (storeTokens _ _) as [[[]|] ?]; auto.
Qed.

(** X4.  The registry holds at most as many states as were issued: after any
    history, the count exceeds the initial count by no more than the number
    of [generateAuthUrl] calls in the history. *)
Theorem state_count_bounded ops this :
  (getStateCount (run config ops this) ≤ getStateCount this + issue_count ops)%nat.
Proof.
  revert this. induction ops as [|op ops IH]; intros this; [simpl; lia|].
  change (run config (op :: ops) this) with (run config ops (exec config this op)).
  specialize (IH (exec config this op)).
  assert (Hop : (getStateCount (exec config this op)
                 ≤ getStateCount this
                   + match op with GenerateAuthUrl _ _ _ _ => 1 | _ => 0 end)%nat).
  { unfold getStateCount.
    destruct op as [msal state now now_sweep|msal code state now now_store|now];
      simpl.
    - rewrite generateAuthUrl_stateStore.
      etrans; [apply map_subseteq_size, map_filter_subseteq|].
      rewrite map_size_insert. destruct (stateStore this !! state); simpl; lia.
    - rewrite handleCallback_stateStore.
      etrans; [apply map_subseteq_size, delete_subseteq|]. lia.
    - etrans; [apply map_subseteq_size, map_filter_subseteq|]. lia. }
  destruct op; simpl issue_count; lia.
Qed.

(** X5.  A sweep is absorbed by any later one: sweeping at a clock and then
    at a later clock leaves the client as the later sweep alone does; in
    particular sweeping twice at one clock is sweeping once. *)
Theorem later_sweep_absorbs_earlier this now1 now2 :
  now1 ≤ now2 →
  cleanExpiredStates config now2 (cleanExpiredStates config now1 this)
  = cleanExpiredStates config now2 this.
Proof.
  intros Hle. unfold cleanExpiredStates, set_stateStore. simpl. f_equal.
  apply map_filter_filter_l. intros k e _. unfold kept. simpl. lia.
Qed.

(** X6.  The provider is called sparingly and the token manager is written
    only by a completed callback.  [generateAuthUrl] makes exactly one call,
    for the URL, with the fixed scopes, the configured redirect URI and the
    state, and never touches the token manager.  [handleCallback] makes no
    call, or the code exchange alone, or the code exchange followed by the
    account lookup; and unless the account lookup was made the token manager
    is untouched. *)
Theorem provider_call_discipline msal this code state now now_sweep now_store :
  (msalCalls (generateAuthUrl config msal state now now_sweep this).2
   = msalCalls this ++ [Msal.GetAuthCodeUrl scopes (AZURE_REDIRECT_URI config) state]
   ∧ tokenManager (generateAuthUrl config msal state now now_sweep this).2
     = tokenManager this)
  ∧ ((msalCalls (handleCallback config msal code state now now_store this).2
      = msalCalls this
      ∧ tokenManager (handleCallback config msal code state now now_store this).2
        = tokenManager this)
     ∨ (msalCalls (handleCallback config msal code state now now_store this).2
        = msalCalls this
          ++ [Msal.AcquireTokenByCode code scopes (AZURE_REDIRECT_URI config)]
        ∧ tokenManager (handleCallback config msal code state now now_store this).2
          = tokenManager this)
     ∨ msalCalls (handleCallback config msal code state now now_store this).2
       = msalCalls this
         ++ [Msal.AcquireTokenByCode code scopes (AZURE_REDIRECT_URI config);
             Msal.GetAllAccounts]).
Proof.
  split.
  - unfold generateAuthUrl, mbind, eff_bind, modify, try_catch, msal_call. simpl.
    by destruct (Msal.getAuthCodeUrl msal _ _ _).
  - destruct (validateState_keeps_rest config this state now) as [Htm Hcalls].
    unfold handleCallback, mbind, eff_bind.
    destruct (validateState_never_throws config this state now) as [[] Hb];
      destruct (validateState config state now this) as [r this'];
      simpl in *; subst r; simpl; [|by left].
    unfold try_catch, mbind, eff_bind, msal_call, on_tokenManager, throw. simpl.
    rewrite Hcalls, Htm.
    destruct (Msal.acquireTokenByCode msal _ _ _) as [[response|]|]; simpl;
      [|by right; left..].
    destruct (falsy_string _); simpl; [by right; left|].
    right; right. rewrite <- app_assoc. simpl.
    destruct (Msal.getAllAccounts msal) as [[[|account accounts]|]|]; simpl;
      try done.
    by destruct (storeTokens _ _) as [[[]|] ?].
Qed.

End Registry.

(** *** Concrete runs *)

Lemma sweep_spares_valid_state_witness :
  (validateState Fixtures.config "5c1f" 240000
     (cleanExpiredStates Fixtures.config 200000 (Fixtures.client_issued None))).1
  = Ok true.
Proof.
  assert (Hs : stateStore (Fixtures.client_issued None) !! "5c1f" = Some (issued 1000))
    by (vm_compute; reflexivity).
  assert (Hle : 200000 ≤ 240000) by lia.
  assert (Hage : 240000 - timestamp (issued 1000) < maxAge Fixtures.config)
    by (vm_compute; reflexivity).
  exact (proj2 (sweep_spares_valid_state Fixtures.config (Fixtures.client_issued None)
                  "5c1f" (issued 1000) 200000 240000 Hs Hle Hage)).
Defined.

Lemma failed_exchange_consumes_state_witness :
  (handleCallback Fixtures.config Fixtures.msal_down "test-code" "5c1f" 2000 2001
     (Fixtures.client_issued None)).1
  = Throw (AuthenticationError "Failed to complete authentication")
  ∧ stateStore
      (handleCallback Fixtures.config Fixtures.msal_down "test-code" "5c1f" 2000 2001
         (Fixtures.client_issued None)).2 !! "5c1f" = None.
Proof.
  assert (Hs : stateStore (Fixtures.client_issued None) !! "5c1f" = Some (issued 1000))
    by (vm_compute; reflexivity).
  assert (Hage : 2000 - timestamp (issued 1000) < maxAge Fixtures.config)
    by (vm_compute; reflexivity).
  assert (Hfail : exchange_fails Fixtures.config Fixtures.msal_down "test-code")
    by exact I.
  destruct (failed_exchange_consumes_state Fixtures.config Fixtures.msal_down
              (Fixtures.client_issued None) "test-code" "5c1f" (issued 1000)
              2000 2001 Hs Hage Hfail)
    as (Hthrow & _ & Hgone & _).
  split; [exact Hthrow | exact Hgone].
Defined.

Lemma later_sweep_absorbs_earlier_witness :
  cleanExpiredStates Fixtures.config 400000
    (cleanExpiredStates Fixtures.config 200000 (Fixtures.client_issued None))
  = cleanExpiredStates Fixtures.config 400000 (Fixtures.client_issued None).
Proof.
  apply (later_sweep_absorbs_earlier Fixtures.config (Fixtures.client_issued None)
           200000 400000).
  lia.
Defined.

End RegistryExtras.

(** * Further properties of the token refresher *)

Module RefresherExtras.
Import TokenRefresher TokenRefresherMore RefresherFacts.

Section Refresher.

Context {M : Type} `{ITokenManager M}.

Implicit Types (w : World M) (tm : M) (tokens : TokenSet).

(** X7.  A storage error is propagated unchanged: when [getTokens] throws,
    the caller returns that very error at its first resumption, and the call
    has no other effect - nothing is sent to the provider, the token manager,
    the marker and the promises are the same. *)
Theorem storage_error_propagates w e now response now_refresh :
  getTokens (tokenManager w) = Throw e →
  getValidAccessToken now response now_refresh w
  = Some {| tokenManager := tokenManager w; refreshPromise := refreshPromise w;
            promises := promises w; msalCalls := msalCalls w;
            callers := callers w ++ [Returned (Throw e)] |}.
Proof.
  intros Hget.
  unfold getValidAccessToken, resume_with_tokens, invoke, set_caller. simpl.
  rewrite list_lookup_middle by done. rewrite Hget. simpl.
  rewrite !insert_app_r_alt by done. rewrite !Nat.sub_diag. simpl.
  by rewrite list_lookup_middle.
Qed.

(** *** One refresh at a time, in every interleaving *)

Lemma one_at_a_time_new tm : one_at_a_time (new tm).
Proof. by repeat split. Qed.

(** A caller that is not the owner changes into something else than an
    owner. *)
Lemma one_at_a_time_set_caller w c k k' :
  one_at_a_time w →
  callers w !! c = Some k →
  (∀ p, k ≠ AwaitingOwnRefresh p) →
  (∀ p, k' ≠ AwaitingOwnRefresh p) →
  one_at_a_time (set_caller c k' w).
Proof.
  intros (HL & HP & HO & HU & HK) Hc Hk Hk'.
  assert (Hold : ∀ c' p, <[c:=k']> (callers w) !! c' = Some (AwaitingOwnRefresh p) →
                         callers w !! c' = Some (AwaitingOwnRefresh p)).
  { intros c' p Hc'. destruct (decide (c = c')) as [->|Hne].
    - rewrite list_lookup_insert_eq in Hc' by (by eapply lookup_lt_Some).
      injection Hc' as ->. by destruct (Hk' p).
    - by rewrite list_lookup_insert_ne in Hc'. }
  unfold one_at_a_time, set_caller. split_and!; simpl; try done.
  - intros c' p Hc'. eauto.
  - intros c1 c2 p1 p2 H1 H2. eauto.
  - intros p Hp. destruct (HK p Hp) as [Hlt [c' Hc']]. split; [done|].
    exists c'. rewrite list_lookup_insert_ne; [done|].
    intros ->. rewrite Hc in Hc'. injection Hc' as ->. by destruct (Hk p).
Qed.

Lemma one_at_a_time_step w ev w' :
  one_at_a_time w → step w ev = Some w' → one_at_a_time w'.
Proof.
  intros Hw Hstep. destruct ev as [|c now|q response now|c|c]; simpl in Hstep.
  - (* Invoke *)
    injection Hstep as <-. destruct Hw as (HL & HP & HO & HU & HK).
    assert (Hold : ∀ c p, (callers w ++ [AwaitingTokens (getTokens (tokenManager w))])
                            !! c = Some (AwaitingOwnRefresh p) →
                          callers w !! c = Some (AwaitingOwnRefresh p)).
    { intros c p Hc. apply lookup_app_Some in Hc as [Hc | [_ Hc]]; [done|].
      by destruct (c - length (callers w))%nat. }
    unfold one_at_a_time, invoke. split_and!; simpl; try done.
    + intros c p Hc. eauto.
    + intros c1 c2 p1 p2 H1 H2. eauto.
    + intros p Hp. destruct (HK p Hp) as [Hlt [c Hc]]. split; [done|].
      exists c. by apply lookup_app_l_Some.
  - (* ResumeWithTokens *)
    unfold resume_with_tokens in Hstep.
    destruct (callers w !! c) as [[[tokens|e]|?|?|?]|] eqn:Hc; try done.
    2:{ injection Hstep as <-. by eapply one_at_a_time_set_caller. }
    destruct (bool_decide _).
    { injection Hstep as <-. by eapply one_at_a_time_set_caller. }
    destruct (refreshPromise w) as [p|] eqn:Hmark.
    { injection Hstep as <-. by eapply one_at_a_time_set_caller. }
    simpl in Hstep. injection Hstep as <-.
    destruct Hw as (HL & HP & HO & HU & HK).
    assert (Hnone : ∀ c' p, callers w !! c' = Some (AwaitingOwnRefresh p) → False).
    { intros c' p Hc'. specialize (HO c' p Hc'). congruence. }
    assert (Hnew : ∀ c' p, <[c:=AwaitingOwnRefresh (length (promises w))]> (callers w)
                             !! c' = Some (AwaitingOwnRefresh p) →
                           c' = c ∧ p = length (promises w)).
    { intros c' p Hc'. destruct (decide (c = c')) as [->|Hne].
      - rewrite list_lookup_insert_eq in Hc' by (by eapply lookup_lt_Some).
        by injection Hc' as <-.
      - rewrite list_lookup_insert_ne in Hc' by done. by destruct (Hnone c' p). }
    unfold one_at_a_time. split_and!; simpl.
    + rewrite !length_app. simpl. lia.
    + intros p Hp. apply lookup_app_Some in Hp as [Hp | [Hge Hp]].
      * specialize (HP p Hp). congruence.
      * destruct (p - length (promises w))%nat eqn:Hd; [|by destruct n].
        f_equal. lia.
    + intros c' p Hc'. destruct (Hnew c' p Hc') as [_ ->]. done.
    + intros c1 c2 p1 p2 H1 H2.
      destruct (Hnew _ _ H1) as [-> _]. destruct (Hnew _ _ H2) as [-> _]. done.
    + intros p [= <-]. split; [rewrite length_app; simpl; lia|].
      exists c. apply list_lookup_insert_eq. by eapply lookup_lt_Some.
  - (* ProviderAnswers *)
    unfold provider_answers in Hstep.
    destruct (promises w !! q) as [[|]|] eqn:Hq; try done.
    destruct (refreshAccessToken_receive response now (tokenManager w))
      as [outcome tm'].
    injection Hstep as <-. destruct Hw as (HL & HP & HO & HU & HK).
    unfold one_at_a_time. split_and!; simpl; try done.
    + by rewrite length_insert.
    + intros p Hp. destruct (decide (q = p)) as [->|Hne].
      * rewrite list_lookup_insert_eq in Hp by (by eapply lookup_lt_Some). done.
      * rewrite list_lookup_insert_ne in Hp by done. eauto.
    + intros p Hp. rewrite length_insert. eauto.
  - (* OwnerResumes *)
    unfold owner_resumes in Hstep.
    destruct (callers w !! c) as [[|p| |]|] eqn:Hc; try done.
    destruct (promises w !! p) as [[outcome|]|] eqn:Hp; try done.
    injection Hstep as <-. destruct Hw as (HL & HP & HO & HU & HK).
    assert (Hnone : ∀ c' p', <[c:=Returned outcome]> (callers w) !! c'
                               = Some (AwaitingOwnRefresh p') → False).
    { intros c' p' Hc'. destruct (decide (c = c')) as [->|Hne].
      - rewrite list_lookup_insert_eq in Hc' by (by eapply lookup_lt_Some). done.
      - rewrite list_lookup_insert_ne in Hc' by done.
        by specialize (HU _ _ _ _ Hc Hc'). }
    unfold one_at_a_time. split_and!; simpl; try done.
    + intros q Hq. specialize (HP q Hq). specialize (HO c p Hc).
      rewrite HO in HP. injection HP as ->. rewrite Hp in Hq. done.
    + intros c' p' Hc'. by destruct (Hnone c' p').
    + intros c1 c2 p1 p2 H1 _. by destruct (Hnone c1 p1).
  - (* WaiterResumes *)
    unfold waiter_resumes in Hstep.
    destruct (callers w !! c) as [[| |p|]|] eqn:Hc; try done.
    destruct (promises w !! p) as [[outcome|]|]; try done.
    injection Hstep as <-. by eapply one_at_a_time_set_caller.
Qed.

Lemma one_at_a_time_run evs w w' :
  one_at_a_time w → run evs w = Some w' → one_at_a_time w'.
Proof.
  revert w. induction evs as [|ev evs IH]; intros w Hw Hrun; simpl in Hrun.
  - by injection Hrun as <-.
  - destruct (step w ev) as [w1|] eqn:Hstep; [|done]. simpl in Hrun.
    eapply IH; [|done]. by eapply one_at_a_time_step.
Qed.

(** X8.  One refresh at a time.  In every world reached from a new
    refresher, by any interleaving of calls, resumptions and provider
    answers: at most one exchange awaits the provider's answer, and it is
    the one in the marker; every exchange sent has its promise; and a set
    marker has an owner among the callers, suspended before the [finally]
    block that clears it. *)
Theorem refresher_one_at_a_time tm evs w :
  run evs (new tm) = Some w →
  (∀ p q, promises w !! p = Some None → promises w !! q = Some None → p = q)
  ∧ (∀ p, promises w !! p = Some None → refreshPromise w = Some p)
  ∧ exchanges w = length (promises w)
  ∧ (∀ p, refreshPromise w = Some p →
          ∃ c, callers w !! c = Some (AwaitingOwnRefresh p)
               ∧ ∀ c' p', callers w !! c' = Some (AwaitingOwnRefresh p') → c' = c).
Proof.
  intros Hrun.
  destruct (one_at_a_time_run _ _ _ (one_at_a_time_new tm) Hrun)
    as (HL & HP & HO & HU & HK).
  split_and!; try done.
  - intros p q Hp Hq. pose proof (HP p Hp). pose proof (HP q Hq). congruence.
  - intros p Hp. destruct (HK p Hp) as [_ [c Hc]]. exists c. split; [done|].
    intros c' p' Hc'. by eapply HU.
Qed.

(** X9.  A storage failure while the refreshed token is saved is handled as
    a failed refresh: when [updateAccessToken] throws, the tokens are
    cleared and the callers get the session-expired [AuthenticationError]
    rather than the new token - unless [clearTokens] throws too, in which
    case its error is what the callers get. *)
Theorem update_failure_is_refresh_failure (response : Msal.AuthenticationResult)
    now tm e tm1 :
  updateAccessToken (Msal.accessToken response)
    (or_number (Msal.expiresOn response) (now + 3600000)) tm
  = (Throw e, tm1) →
  refreshAccessToken_receive (Ok (Some response)) now tm
  = match clearTokens tm1 with
    | (Ok _, tm2) =>
        (Throw (AuthenticationError "Session expired. Please re-authenticate."), tm2)
    | (Throw e', tm2) => (Throw e', tm2)
    end.
Proof.
  intros Hupdate.
  unfold refreshAccessToken_receive, try_catch, await, mbind, eff_bind. simpl.
  rewrite Hupdate. by destruct (clearTokens tm1) as [[[]|e'] tm2].
Qed.

End Refresher.

(** *** Over the in-memory token manager *)

(** X10.  A refreshed token is served from the store afterwards.  A call
    alone on an idle refresher whose tokens need a refresh, answered by the
    provider, stores the new access token with the provider's expiry (the
    clock plus one hour when it is absent or 0) and keeps the refresh token
    and the scope; a following call, at a clock at which the new expiry is
    beyond the buffer, returns the same access token and sends nothing to
    the provider. *)
Theorem refreshed_token_is_served_from_store tokens marks calls ks
    (response : Msal.AuthenticationResult) now now_refresh now2 response2 now_refresh2 :
  needs_refresh tokens now →
  or_number (Msal.expiresOn response) (now_refresh + 3600000) - now2 > expiryBuffer →
  let w0 := {| tokenManager := Some tokens; refreshPromise := None;
               promises := marks; msalCalls := calls; callers := ks |} in
  let stored := {| accessToken := Msal.accessToken response;
                   refreshToken := refreshToken tokens;
                   expiresAt := or_number (Msal.expiresOn response)
                                          (now_refresh + 3600000);
                   scope := scope tokens |} in
  (w1 ← getValidAccessToken now (Ok (Some response)) now_refresh w0;
   getValidAccessToken now2 response2 now_refresh2 w1)
  = Some {| tokenManager := Some stored; refreshPromise := None;
            promises := marks ++ [Some (Ok (Msal.accessToken response))];
            msalCalls := calls ++ [refresh_request tokens];
            callers := ks ++ [Returned (Ok (Msal.accessToken response));
                              Returned (Ok (Msal.accessToken response))] |}.
Proof.
  intros Hneed Hlong w0 stored.
  assert (Hfirst :
    getValidAccessToken now (Ok (Some response)) now_refresh w0
    = Some {| tokenManager := Some stored; refreshPromise := None;
              promises := marks ++ [Some (Ok (Msal.accessToken response))];
              msalCalls := calls ++ [refresh_request tokens];
              callers := ks ++ [Returned (Ok (Msal.accessToken response))] |}).
  { unfold getValidAccessToken, resume_with_tokens, invoke, set_caller, w0. simpl.
    rewrite list_lookup_middle by done. simpl.
    rewrite (needs_refresh_test _ _ Hneed). simpl.
    rewrite !insert_app_r_alt by done. rewrite !Nat.sub_diag. simpl.
    rewrite list_lookup_middle by done.
    unfold provider_answers. simpl. rewrite list_lookup_middle by done. simpl.
    unfold owner_resumes. simpl. rewrite list_lookup_middle by done.
    rewrite !insert_app_r_alt by done. rewrite !Nat.sub_diag. simpl.
    rewrite list_lookup_middle by done.
    rewrite insert_app_r_alt by done. by rewrite Nat.sub_diag. }
  rewrite Hfirst. simpl.
  unfold getValidAccessToken, resume_with_tokens, invoke, set_caller. simpl.
  rewrite list_lookup_middle by done.
  simpl. rewrite bool_decide_eq_true_2 by done. simpl.
  rewrite !insert_app_r_alt by done. rewrite !Nat.sub_diag. simpl.
  rewrite list_lookup_middle by done.
  by rewrite <- app_assoc.
Qed.

(** X11.  After a failed refresh there is nothing left to refresh.  A call
    alone on an idle refresher whose tokens need a refresh, which the
    provider rejects or answers with [null], throws the session-expired
    [AuthenticationError] and leaves the store empty; a following call
    returns the store's own error and sends nothing to the provider. *)
Theorem failed_refresh_leaves_nothing_to_refresh tokens marks calls ks
    response now now_refresh now2 response2 now_refresh2 :
  needs_refresh tokens now →
  (∃ e, response = Throw e) ∨ response = Ok None →
  (w1 ← getValidAccessToken now response now_refresh
          {| tokenManager := Some tokens; refreshPromise := None;
             promises := marks; msalCalls := calls; callers := ks |};
   getValidAccessToken now2 response2 now_refresh2 w1)
  = Some {| tokenManager := None; refreshPromise := None;
            promises :=
              marks ++ [Some (Throw (AuthenticationError
                                       "Session expired. Please re-authenticate."))];
            msalCalls := calls ++ [refresh_request tokens];
            callers :=
              ks ++ [Returned (Throw (AuthenticationError
                                        "Session expired. Please re-authenticate."));
                     Returned (Throw (ForeignError "No tokens stored"))] |}.
Proof.
  intros Hneed Hfail.
  assert (Hfirst :
    getValidAccessToken now response now_refresh
      {| tokenManager := Some tokens; refreshPromise := None;
         promises := marks; msalCalls := calls; callers := ks |}
    = Some {| tokenManager := None; refreshPromise := None;
              promises :=
                marks ++ [Some (Throw (AuthenticationError
                                         "Session expired. Please re-authenticate."))];
              msalCalls := calls ++ [refresh_request tokens];
              callers :=
                ks ++ [Returned (Throw (AuthenticationError
                                          "Session expired. Please re-authenticate."))] |}).
  { destruct Hfail as [[e ->] | ->];
    unfold getValidAccessToken, resume_with_tokens, invoke, set_caller; simpl;
    rewrite list_lookup_middle by done; simpl;
    rewrite (needs_refresh_test _ _ Hneed); simpl;
    rewrite !insert_app_r_alt by done; rewrite !Nat.sub_diag; simpl;
    rewrite list_lookup_middle by done;
    unfold provider_answers; simpl; rewrite list_lookup_middle by done; simpl;
    unfold owner_resumes; simpl; rewrite list_lookup_middle by done;
    rewrite !insert_app_r_alt by done; rewrite !Nat.sub_diag; simpl;
    rewrite list_lookup_middle by done;
    rewrite insert_app_r_alt by done; by rewrite Nat.sub_diag. }
  rewrite Hfirst. simpl.
  unfold getValidAccessToken, resume_with_tokens, invoke, set_caller. simpl.
  rewrite list_lookup_middle by done. simpl.
  rewrite !insert_app_r_alt by done. rewrite !Nat.sub_diag. simpl.
  rewrite list_lookup_middle by done.
  by rewrite <- app_assoc.
Qed.

(** X12.  Fail secure, for every waiting caller.  When the provider rejects
    the refresh or answers it with [null], a burst of [S n] calls on an idle
    refresher whose tokens need a refresh ends with the store empty, one
    exchange sent, the marker clear, and the session-expired
    [AuthenticationError] returned to each of the [S n] callers. *)
Theorem fail_secure_for_every_waiter n tokens marks calls ks response now now_refresh :
  needs_refresh tokens now →
  (∃ e, response = Throw e) ∨ response = Ok None →
  run (burst {| tokenManager := Some tokens; refreshPromise := None;
                promises := marks; msalCalls := calls; callers := ks |}
         (S n) now response now_refresh)
    {| tokenManager := Some tokens; refreshPromise := None;
       promises := marks; msalCalls := calls; callers := ks |}
  = Some {| tokenManager := None; refreshPromise := None;
            promises :=
              marks ++ [Some (Throw (AuthenticationError
                                       "Session expired. Please re-authenticate."))];
            msalCalls := calls ++ [refresh_request tokens];
            callers :=
              ks ++ replicate (S n)
                      (Returned (Throw (AuthenticationError
                                          "Session expired. Please re-authenticate."))) |}.
Proof.
  intros Hneed Hfail.
  assert (Hget : getTokens (Some tokens : MockTokenManager.t) = Ok tokens)
    by reflexivity.
  etrans;
    [exact (burst_runs n _ marks calls ks tokens now response now_refresh Hget Hneed)|].
  by rewrite (refresh_failure_clears response now_refresh (Some tokens) Hfail).
Qed.

(** *** Concrete runs *)

Lemma storage_error_propagates_witness :
  getValidAccessToken 1000 (Ok (Some Fixtures.refreshed)) 1100
    (new (None : MockTokenManager.t))
  = Some {| tokenManager := None; refreshPromise := None; promises := [];
            msalCalls := [];
            callers := [Returned (Throw (ForeignError "No tokens stored"))] |}.
Proof.
  apply (storage_error_propagates (new (None : MockTokenManager.t))
           (ForeignError "No tokens stored") 1000 (Ok (Some Fixtures.refreshed)) 1100).
  reflexivity.
Defined.

Lemma refresher_one_at_a_time_witness :
  exchanges Fixtures.after_burst = length (promises Fixtures.after_burst)
  ∧ (∀ p, promises Fixtures.after_burst !! p = Some None →
          refreshPromise Fixtures.after_burst = Some p).
Proof.
  assert (Hrun : run ([Invoke; ResumeWithTokens 0 1000; Invoke; Invoke;
                       ResumeWithTokens 2 1001; ResumeWithTokens 1 1002]
                      ++ ProviderAnswers 0 (Ok (Some Fixtures.refreshed)) 1100
                      :: [WaiterResumes 2; OwnerResumes 0; WaiterResumes 1])
                   (new (Some (Fixtures.tokens 121000)))
                 = Some Fixtures.after_burst) by reflexivity.
  destruct (refresher_one_at_a_time _ _ _ Hrun) as (_ & Hpending & Hcount & _).
  split; [exact Hcount | exact Hpending].
Defined.

Lemma update_failure_is_refresh_failure_witness :
  refreshAccessToken_receive (Ok (Some Fixtures.refreshed)) 1100
    (tt : OnePasswordTokenManager.t)
  = (Throw (AuthenticationError "Session expired. Please re-authenticate."), tt).
Proof.
  exact (update_failure_is_refresh_failure (M:=OnePasswordTokenManager.t)
           Fixtures.refreshed 1100 tt OnePasswordTokenManager.not_implemented tt
           eq_refl).
Defined.

Lemma refreshed_token_is_served_from_store_witness :
  (w1 ← getValidAccessToken 1000 (Ok (Some Fixtures.refreshed)) 1100
          (new (Some (Fixtures.tokens 121000)));
   getValidAccessToken 2000 (Throw (ForeignError "unused")) 2100 w1)
  = Some {| tokenManager :=
              Some {| accessToken := "new-token"; refreshToken := "refresh-token";
                      expiresAt := 3700000; scope := "Tasks.Read User.Read" |};
            refreshPromise := None;
            promises := [Some (Ok "new-token")];
            msalCalls := [refresh_request (Fixtures.tokens 121000)];
            callers := [Returned (Ok "new-token"); Returned (Ok "new-token")] |}.
Proof.
  apply (refreshed_token_is_served_from_store (Fixtures.tokens 121000) [] [] []
           Fixtures.refreshed 1000 1100 2000 (Throw (ForeignError "unused")) 2100).
  - vm_compute. congruence.
  - vm_compute. reflexivity.
Defined.

Lemma failed_refresh_leaves_nothing_to_refresh_witness :
  (w1 ← getValidAccessToken 1000 (Throw (ForeignError "invalid_grant")) 1100
          (new (Some (Fixtures.tokens 121000)));
   getValidAccessToken 2000 (Ok (Some Fixtures.refreshed)) 2100 w1)
  = Some {| tokenManager := None; refreshPromise := None;
            promises :=
              [Some (Throw (AuthenticationError
                              "Session expired. Please re-authenticate."))];
            msalCalls := [refresh_request (Fixtures.tokens 121000)];
            callers :=
              [Returned (Throw (AuthenticationError
                                  "Session expired. Please re-authenticate."));
               Returned (Throw (ForeignError "No tokens stored"))] |}.
Proof.
  apply (failed_refresh_leaves_nothing_to_refresh (Fixtures.tokens 121000) [] [] []
           (Throw (ForeignError "invalid_grant")) 1000 1100 2000
           (Ok (Some Fixtures.refreshed)) 2100).
  - vm_compute. congruence.
  - left. by eexists.
Defined.

Lemma fail_secure_for_every_waiter_witness :
  run (burst (new (Some (Fixtures.tokens 121000))) 3 1000 (Ok None) 1100)
    (new (Some (Fixtures.tokens 121000)))
  = Some {| tokenManager := None; refreshPromise := None;
            promises :=
              [Some (Throw (AuthenticationError
                              "Session expired. Please re-authenticate."))];
            msalCalls := [refresh_request (Fixtures.tokens 121000)];
            callers :=
              replicate 3
                (Returned (Throw (AuthenticationError
                                    "Session expired. Please re-authenticate."))) |}.
Proof.
  apply (fail_secure_for_every_waiter 2 (Fixtures.tokens 121000) [] [] [] (Ok None)
           1000 1100).
  - vm_compute. congruence.
  - by right.
Defined.

End RefresherExtras.

(** * Properties of the keytar token manager *)

Module KeytarFacts.
Import KeytarTokenManager.

(** *** Printing and parsing a number *)

Lemma digit_of_pretty_char (d : N) :
  (d < 10)%N → Js.digit_of (pretty_N_char d) = Some (Z.of_N d).
Proof.
  intros Hd.
  assert (d = 0 ∨ d = 1 ∨ d = 2 ∨ d = 3 ∨ d = 4 ∨ d = 5 ∨ d = 6 ∨ d = 7
          ∨ d = 8 ∨ d = 9)%N as Hcases by lia.
  repeat (destruct Hcases as [-> | Hcases]; [reflexivity|]). by subst d.
Qed.

Lemma parse_pretty_go (x : N) :
  (0 < x)%N →
  ∀ s, Js.parse_digits (pretty_N_go x s) None = Js.parse_digits s (Some (Z.of_N x)).
Proof.
  induction (N.lt_wf_0 x) as [x _ IH]. intros Hx s.
  rewrite pretty_N_go_step by done.
  assert (Hmod : (x `mod` 10 < 10)%N) by (apply N.mod_lt; lia).
  assert (Hdiv : (x = 10 * (x `div` 10) + x `mod` 10)%N) by (apply N.div_mod; lia).
  destruct (decide (x `div` 10 = 0)%N) as [Hz | Hnz].
  - rewrite Hz, pretty_N_go_0. simpl.
    rewrite digit_of_pretty_char by done. simpl. do 2 f_equal. lia.
  - rewrite IH; [|apply N.div_lt; lia|lia]. simpl.
    rewrite digit_of_pretty_char by done. simpl. do 2 f_equal. lia.
Qed.

Lemma pretty_go_head (x : N) :
  (0 < x)%N →
  ∀ s, ∃ d rest, (d < 10)%N ∧ pretty_N_go x s = String (pretty_N_char d) rest.
Proof.
  induction (N.lt_wf_0 x) as [x _ IH]. intros Hx s.
  rewrite pretty_N_go_step by done.
  destruct (decide (x `div` 10 = 0)%N) as [Hz | Hnz].
  - rewrite Hz, pretty_N_go_0. eexists _, _. split; [|done]. apply N.mod_lt. lia.
  - apply IH.
    + apply N.div_lt; [done|lia].
    + apply N.neq_0_lt_0. done.
Qed.

Lemma parseInt_digits_first (d : N) rest :
  (d < 10)%N →
  Js.parseInt (String (pretty_N_char d) rest)
  = Js.parse_digits (String (pretty_N_char d) rest) None.
Proof.
  intros Hd.
  assert (d = 0 ∨ d = 1 ∨ d = 2 ∨ d = 3 ∨ d = 4 ∨ d = 5 ∨ d = 6 ∨ d = 7
          ∨ d = 8 ∨ d = 9)%N as Hcases by lia.
  repeat (destruct Hcases as [-> | Hcases]; [reflexivity|]). by subst d.
Qed.

Lemma parse_digits_pretty_positive (p : positive) :
  Js.parse_digits (pretty (N.pos p)) None = Some (Z.pos p).
Proof.
  unfold pretty, pretty_N. rewrite decide_False by done.
  exact (parse_pretty_go (N.pos p) eq_refl "").
Qed.

Lemma parseInt_pretty_positive (p : positive) :
  Js.parseInt (pretty (N.pos p)) = Some (Z.pos p).
Proof.
  rewrite <- parse_digits_pretty_positive.
  unfold pretty, pretty_N. rewrite decide_False by done.
  destruct (pretty_go_head (N.pos p) eq_refl "") as (d & rest & Hd & ->).
  by apply parseInt_digits_first.
Qed.

(** [parseInt(n.toString(), 10)] is [n]. *)
Lemma parseInt_number_toString (z : Z) :
  Js.parseInt (Js.number_toString z) = Some z.
Proof.
  unfold Js.number_toString, pretty at 1, pretty_Z.
  destruct z as [|p|p]; [done|apply parseInt_pretty_positive|].
  change (Z.opp <$> Js.parse_digits (pretty (N.pos p)) None = Some (Z.neg p)).
  by rewrite parse_digits_pretty_positive.
Qed.

Lemma number_toString_nonempty (z : Z) : Js.number_toString z ≠ "".
Proof.
  intros Hempty. pose proof (parseInt_number_toString z) as Hparse.
  by rewrite Hempty in Hparse.
Qed.

(** *** Native calls that do not fail *)

Ltac next_fault l := destruct l as [|[] l]; simpl in *; try discriminate.

Lemma calm_after n n' m' k :
  Keytar.calm (n + n') k = true → Keytar.calm n' (Keytar.after n m' k) = true.
Proof.
  destruct k as [m l]. unfold Keytar.calm, Keytar.after. simpl.
  revert l. induction n as [|n IH]; intros l; [done|].
  destruct l as [|b l]; simpl.
  - by rewrite take_nil.
  - intros [_ Hl]%andb_true_iff. by apply IH.
Qed.

Lemma calm_le n n' k :
  (n ≤ n')%nat → Keytar.calm n' k = true → Keytar.calm n k = true.
Proof.
  destruct k as [m l]. unfold Keytar.calm. simpl.
  revert n n'. induction l as [|b l IH]; intros [|n] [|n'] Hle; simpl;
    try done; try lia.
  intros [-> Hl]%andb_true_iff. simpl. apply (IH n n'); [lia|done].
Qed.

Lemma entries_after n m' k : Keytar.entries (Keytar.after n m' k) = m'.
Proof. reflexivity. Qed.

Lemma after_after n n' m' m'' k :
  Keytar.after n' m'' (Keytar.after n m' k) = Keytar.after (n + n') m'' k.
Proof.
  unfold Keytar.after. simpl. by rewrite drop_drop.
Qed.

(** The strings of a token set, and its printed expiry, as variables: the
    printed expiry is not empty. *)
Ltac strings_of tokens :=
  let a := fresh "a" in
  let r := fresh "r" in
  let e := fresh "e" in
  let s := fresh "s" in
  let p := fresh "p" in
  let He := fresh "He" in
  destruct tokens as [a r e s];
  unfold written, storeTokens; simpl;
  pose proof (number_toString_nonempty e) as He; revert He;
  generalize (Js.number_toString e); intros p He.

Ltac keytar_calls :=
  unfold try_catch, mbind, eff_bind, Keytar.setPassword, Keytar.getPassword,
    Keytar.deletePassword, Keytar.checkRequired, Keytar.native, Keytar.after.

Lemma storeTokens_calm tokens k :
  Keytar.calm 4 k = true →
  accessToken tokens ≠ "" → refreshToken tokens ≠ "" → scope tokens ≠ "" →
  storeTokens tokens k
  = (Ok tt, Keytar.after 4 (foldl write (Keytar.entries k) (written tokens)) k).
Proof.
  destruct k as [m l]. unfold Keytar.calm. strings_of tokens.
  intros Hcalm Ha Hr Hs.
  destruct a as [|? a]; [done|]. destruct r as [|? r]; [done|].
  destruct s as [|? s]; [done|]. destruct p as [|? p]; [done|].
  keytar_calls. do 4 (try next_fault l); reflexivity.
Qed.

Lemma getTokens_calm k :
  Keytar.calm 4 k = true →
  getTokens k = (assembled (Keytar.entries k), Keytar.after 4 (Keytar.entries k) k).
Proof.
  destruct k as [m l]. unfold Keytar.calm. simpl. intros Hcalm.
  unfold getTokens, assembled. keytar_calls.
  do 4 (try next_fault l); by destruct (_ || _).
Qed.

Lemma clearTokens_calm k :
  Keytar.calm 4 k = true →
  clearTokens k
  = (Ok tt, Keytar.after 4 (foldl erase (Keytar.entries k) accounts) k).
Proof.
  destruct k as [m l]. unfold Keytar.calm. simpl. intros Hcalm.
  unfold clearTokens. keytar_calls.
  do 4 (try next_fault l); reflexivity.
Qed.

Lemma hasValidTokens_calm now k :
  Keytar.calm 4 k = true →
  hasValidTokens now k
  = (Ok (match assembled (Keytar.entries k) with
         | Ok tokens => Js.gt (retrieved_expiresAt tokens) now
         | Throw _ => false
         end),
     Keytar.after 4 (Keytar.entries k) k).
Proof.
  intros Hcalm. unfold hasValidTokens, try_catch, mbind, eff_bind.
  rewrite getTokens_calm by done. by destruct (assembled _).
Qed.

(** [storeTokens] when the native call for entry number [j] fails. *)
Lemma storeTokens_fault tokens (j : nat) rest m :
  (j < 4)%nat →
  accessToken tokens ≠ "" → refreshToken tokens ≠ "" → scope tokens ≠ "" →
  storeTokens tokens
    {| Keytar.entries := m; Keytar.faults := replicate j false ++ true :: rest |}
  = (Throw (TokenStorageError "Failed to store tokens"),
     {| Keytar.entries := foldl write m (take j (written tokens));
        Keytar.faults := rest |}).
Proof.
  intros Hj. strings_of tokens. intros Ha Hr Hs.
  destruct a as [|? a]; [done|]. destruct r as [|? r]; [done|].
  destruct s as [|? s]; [done|]. destruct p as [|? p]; [done|].
  destruct j as [|[|[|[|j]]]]; [reflexivity..|lia].
Qed.

(** *** What is read back *)

Lemma written_lookup m tokens :
  foldl write m (written tokens) !! (SERVICE_NAME, "access_token")
  = Some (accessToken tokens)
  ∧ foldl write m (written tokens) !! (SERVICE_NAME, "refresh_token")
    = Some (refreshToken tokens)
  ∧ foldl write m (written tokens) !! (SERVICE_NAME, "expires_at")
    = Some (Js.number_toString (expiresAt tokens))
  ∧ foldl write m (written tokens) !! (SERVICE_NAME, "scope")
    = Some (scope tokens).
Proof.
  unfold written, write. simpl. split_and!.
  - by rewrite !lookup_insert_ne, lookup_insert_eq by done.
  - by rewrite !lookup_insert_ne, lookup_insert_eq by done.
  - by rewrite !lookup_insert_ne, lookup_insert_eq by done.
  - by rewrite lookup_insert_eq.
Qed.

Lemma assembled_written m tokens :
  assembled (foldl write m (written tokens))
  = if bool_decide (accessToken tokens = "") || bool_decide (refreshToken tokens = "")
       || bool_decide (scope tokens = "")
    then Throw (TokenStorageError "No tokens found")
    else Ok (retrieved_of tokens).
Proof.
  unfold assembled.
  destruct (written_lookup m tokens) as (-> & -> & -> & ->). simpl.
  unfold falsy_string, retrieved_of.
  rewrite (bool_decide_eq_false_2 (Js.number_toString _ = ""))
    by apply number_toString_nonempty.
  rewrite parseInt_number_toString, orb_false_r. done.
Qed.

Lemma assembled_written_complete m tokens :
  accessToken tokens ≠ "" → refreshToken tokens ≠ "" → scope tokens ≠ "" →
  assembled (foldl write m (written tokens)) = Ok (retrieved_of tokens).
Proof.
  intros. rewrite assembled_written. by rewrite !bool_decide_eq_false_2 by done.
Qed.

Lemma assembled_Ok m tokens :
  assembled m = Ok tokens →
  m !! (SERVICE_NAME, "access_token") = Some (retrieved_accessToken tokens)
  ∧ m !! (SERVICE_NAME, "refresh_token") = Some (retrieved_refreshToken tokens)
  ∧ m !! (SERVICE_NAME, "scope") = Some (retrieved_scope tokens)
  ∧ retrieved_accessToken tokens ≠ ""
  ∧ retrieved_refreshToken tokens ≠ ""
  ∧ retrieved_scope tokens ≠ "".
Proof.
  unfold assembled, missing, falsy_string.
  destruct (m !! (SERVICE_NAME, "access_token")) as [a|]; [|done].
  destruct (m !! (SERVICE_NAME, "refresh_token")) as [r|];
    [|by rewrite orb_true_r].
  destruct (m !! (SERVICE_NAME, "expires_at")) as [e|];
    [|by rewrite orb_true_r].
  destruct (m !! (SERVICE_NAME, "scope")) as [s|]; [|by rewrite orb_true_r].
  repeat case_bool_decide; simpl; try done.
  intros [= <-]. simpl. done.
Qed.

(** *** Whatever the native calls do *)

Ltac any_fault l := destruct l as [|[] l]; simpl.

Lemma storeTokens_result tokens k :
  (storeTokens tokens k).1 = Ok tt
  ∨ (storeTokens tokens k).1 = Throw (TokenStorageError "Failed to store tokens").
Proof.
  destruct k as [m l]. strings_of tokens.
  destruct p as [|? p]; [done|].
  destruct a as [|? a], r as [|? r], s as [|? s]; keytar_calls; simpl;
    do 4 (try any_fault l); auto.
Qed.

Lemma getTokens_result k :
  ((∃ tokens, (getTokens k).1 = Ok tokens)
   ∨ (getTokens k).1 = Throw (TokenStorageError "No tokens found"))
  ∧ Keytar.entries (getTokens k).2 = Keytar.entries k.
Proof.
  destruct k as [m l]. unfold getTokens. keytar_calls.
  simpl. do 4 (try any_fault l); try destruct (_ || _); simpl; eauto.
Qed.

Lemma getTokens_incomplete k account :
  account ∈ accounts →
  Keytar.entries k !! (SERVICE_NAME, account) = None →
  (getTokens k).1 = Throw (TokenStorageError "No tokens found").
Proof.
  intros Haccount Hnone.
  assert (Hmissing :
            missing (Keytar.entries k !! (SERVICE_NAME, "access_token"))
            || missing (Keytar.entries k !! (SERVICE_NAME, "refresh_token"))
            || missing (Keytar.entries k !! (SERVICE_NAME, "expires_at"))
            || missing (Keytar.entries k !! (SERVICE_NAME, "scope")) = true).
  { unfold accounts in Haccount. rewrite !elem_of_cons, elem_of_nil in Haccount.
    destruct Haccount as [-> | [-> | [-> | [-> | []]]]]; rewrite Hnone; simpl;
      by rewrite ?orb_true_r. }
  destruct k as [m l]. simpl in Hmissing.
  unfold getTokens. keytar_calls.
  simpl. do 4 (try any_fault l); try rewrite Hmissing; done.
Qed.

End KeytarFacts.

(** * Further properties of the keytar token manager *)

Module KeytarExtras.
Import KeytarTokenManager KeytarFacts.

(** X13.  Round trip: a token set whose three strings are non-empty, stored
    on a keychain whose native calls succeed, is read back field for field
    (the expiry through [toString] and [parseInt]), and [hasValidTokens]
    then compares that expiry with the clock. *)
Theorem keytar_store_then_get tokens now k :
  Keytar.calm 12 k = true →
  Js.prints_as_decimal (expiresAt tokens) →
  accessToken tokens ≠ "" → refreshToken tokens ≠ "" → scope tokens ≠ "" →
  (storeTokens tokens;;
   tokens' ← getTokens;
   valid ← hasValidTokens now;
   mret (tokens', valid)) k
  = (Ok (retrieved_of tokens, bool_decide (expiresAt tokens > now)),
     Keytar.after 12 (foldl write (Keytar.entries k) (written tokens)) k).
Proof.
  intros Hcalm _ Haccess Hrefresh Hscope.
  unfold mbind, eff_bind.
  rewrite storeTokens_calm; [|apply (calm_le 4 12); [lia|done]|done..].
  rewrite getTokens_calm by (apply (calm_after 4 4), (calm_le 8 12); [lia|done]).
  rewrite ?entries_after, assembled_written_complete by done.
  cbv beta iota. rewrite after_after.
  rewrite hasValidTokens_calm by (by apply (calm_after 8 4)).
  rewrite ?entries_after, assembled_written_complete by done.
  cbv beta iota. by rewrite after_after.
Qed.

(** X14.  A token set with an empty access token, refresh token or scope
    cannot be stored: the keytar package refuses the empty password, so
    [storeTokens] throws "Failed to store tokens", whatever the native calls
    do; with an empty access token it does so before any native call, and
    the keychain is as it was. *)
Theorem keytar_empty_field_is_rejected tokens k :
  accessToken tokens = "" ∨ refreshToken tokens = "" ∨ scope tokens = "" →
  (storeTokens tokens k).1 = Throw (TokenStorageError "Failed to store tokens")
  ∧ (accessToken tokens = "" → (storeTokens tokens k).2 = k).
Proof.
  destruct k as [m l]. strings_of tokens. intros Hempty.
  destruct p as [|? p]; [done|]. split.
  - destruct a as [|? a], r as [|? r], s as [|? s]; keytar_calls; simpl;
      try (by destruct Hempty as [|[|]]);
      do 4 (try any_fault l); done.
  - intros ->. reflexivity.
Qed.

(** X15.  No error of the native module leaves the manager: whatever calls
    fail, [storeTokens], [getTokens] and [clearTokens] either succeed or throw
    a [TokenStorageError] with their own fixed message, [updateAccessToken]
    throws one of the first two, and [hasValidTokens] never throws. *)
Theorem keytar_errors_are_sanitized tokens accessToken' expiresAt' now k :
  ((storeTokens tokens k).1 = Ok tt
   ∨ (storeTokens tokens k).1 = Throw (TokenStorageError "Failed to store tokens"))
  ∧ ((∃ tokens', (getTokens k).1 = Ok tokens')
     ∨ (getTokens k).1 = Throw (TokenStorageError "No tokens found"))
  ∧ (∃ valid, (hasValidTokens now k).1 = Ok valid)
  ∧ ((clearTokens k).1 = Ok tt
     ∨ (clearTokens k).1 = Throw (TokenStorageError "Failed to clear tokens"))
  ∧ ((updateAccessToken accessToken' expiresAt' k).1 = Ok tt
     ∨ (updateAccessToken accessToken' expiresAt' k).1
       = Throw (TokenStorageError "No tokens found")
     ∨ (updateAccessToken accessToken' expiresAt' k).1
       = Throw (TokenStorageError "Failed to store tokens")).
Proof.
  split_and!.
  - apply storeTokens_result.
  - apply getTokens_result.
  - unfold hasValidTokens, try_catch, mbind, eff_bind.
    destruct (getTokens k) as [[tokens'|e] k']; simpl; eauto.
  - destruct k as [m l]. unfold clearTokens. keytar_calls.
    simpl. do 4 (try any_fault l); auto.
  - unfold updateAccessToken, mbind, eff_bind.
    destruct (getTokens_result k) as [[[tokens' Hget] | Hget] _];
      destruct (getTokens k) as [[tokens''|e] k']; simpl in *; try done.
    + destruct (storeTokens_result
                  {| accessToken := accessToken';
                     refreshToken := retrieved_refreshToken tokens'';
                     expiresAt := expiresAt';
                     scope := retrieved_scope tokens'' |} k'); auto.
    + right. left. by injection Hget as ->.
Qed.

(** X16.  After [clearTokens] on a keychain whose native calls succeed,
    [getTokens] throws, [hasValidTokens] is false, and no entry other than
    the four accounts of the service has been touched. *)
Theorem keytar_clear_then_get now k :
  Keytar.calm 12 k = true →
  let m1 := foldl erase (Keytar.entries k) accounts in
  clearTokens k = (Ok tt, Keytar.after 4 m1 k)
  ∧ getTokens (Keytar.after 4 m1 k)
    = (Throw (TokenStorageError "No tokens found"), Keytar.after 8 m1 k)
  ∧ hasValidTokens now (Keytar.after 8 m1 k) = (Ok false, Keytar.after 12 m1 k)
  ∧ (∀ service account,
       (service = SERVICE_NAME → account ∉ accounts) →
       m1 !! (service, account) = Keytar.entries k !! (service, account)).
Proof.
  intros Hcalm m1.
  assert (Hassembled : assembled m1 = Throw (TokenStorageError "No tokens found")).
  { unfold assembled, m1, accounts, erase. simpl.
    by rewrite !lookup_delete_ne, lookup_delete_eq by done. }
  split_and!.
  - by rewrite clearTokens_calm by (apply (calm_le 4 12); [lia|done]).
  - rewrite getTokens_calm by (apply (calm_after 4 4), (calm_le 8 12); [lia|done]).
    by rewrite ?entries_after, Hassembled, after_after.
  - rewrite hasValidTokens_calm by (by apply (calm_after 8 4)).
    by rewrite ?entries_after, Hassembled, after_after.
  - intros service account Hother. unfold m1, accounts, erase. simpl.
    rewrite !lookup_delete_ne; [done|..];
      intros [= <- <-]; apply Hother; try done; unfold accounts;
      rewrite !elem_of_cons; tauto.
Qed.

(** X17.  [updateAccessToken] replaces the access token and the expiry and
    keeps the refresh token and the scope: on a keychain that holds a
    readable token set, the set read after the update has the new two and
    the old two. *)
Theorem keytar_update_keeps_refresh_token old accessToken' expiresAt' k :
  Keytar.calm 12 k = true →
  (getTokens k).1 = Ok old →
  accessToken' ≠ "" →
  Js.prints_as_decimal expiresAt' →
  let updated := {| accessToken := accessToken';
                    refreshToken := retrieved_refreshToken old;
                    expiresAt := expiresAt';
                    scope := retrieved_scope old |} in
  (updateAccessToken accessToken' expiresAt';; getTokens) k
  = (Ok (retrieved_of updated),
     Keytar.after 12 (foldl write (Keytar.entries k) (written updated)) k).
Proof.
  intros Hcalm Hget Haccess _ updated.
  rewrite getTokens_calm in Hget by (apply (calm_le 4 12); [lia|done]).
  simpl in Hget. destruct (assembled_Ok _ _ Hget) as (_ & _ & _ & _ & Hrefresh & Hscope).
  unfold updateAccessToken, mbind, eff_bind.
  rewrite getTokens_calm by (apply (calm_le 4 12); [lia|done]).
  rewrite Hget. cbv beta iota.
  rewrite storeTokens_calm;
    [|apply (calm_after 4 4), (calm_le 8 12); [lia|done]|done..].
  rewrite ?entries_after, after_after.
  rewrite getTokens_calm by (by apply (calm_after 8 4)).
  rewrite ?entries_after, after_after.
  by rewrite (assembled_written_complete _ updated).
Qed.

(** X18.  [updateAccessToken] needs a complete token set: when one of the
    four entries is absent it throws "No tokens found", whatever the native
    calls do, and writes nothing. *)
Theorem keytar_update_needs_complete_set accessToken' expiresAt' account k :
  account ∈ accounts →
  Keytar.entries k !! (SERVICE_NAME, account) = None →
  (updateAccessToken accessToken' expiresAt' k).1
  = Throw (TokenStorageError "No tokens found")
  ∧ Keytar.entries (updateAccessToken accessToken' expiresAt' k).2
    = Keytar.entries k.
Proof.
  intros Haccount Hnone.
  pose proof (getTokens_incomplete k account Haccount Hnone) as Hget.
  destruct (getTokens_result k) as [_ Hentries].
  unfold updateAccessToken, mbind, eff_bind.
  destruct (getTokens k) as [[tokens|e] k']; simpl in *; [done|].
  split; [by injection Hget as ->|done].
Qed.

(** X19.  [storeTokens] is not atomic: when the native call for its entry
    number [j] (from 0) fails, the entries before it have been written and
    stay written, and the caller gets "Failed to store tokens". *)
Theorem keytar_store_is_not_atomic tokens (j : nat) rest m :
  (j < 4)%nat →
  Js.prints_as_decimal (expiresAt tokens) →
  accessToken tokens ≠ "" → refreshToken tokens ≠ "" → scope tokens ≠ "" →
  storeTokens tokens
    {| Keytar.entries := m; Keytar.faults := replicate j false ++ true :: rest |}
  = (Throw (TokenStorageError "Failed to store tokens"),
     {| Keytar.entries := foldl write m (take j (written tokens));
        Keytar.faults := rest |}).
Proof.
  intros Hj _ Ha Hr Hs. by apply storeTokens_fault.
Qed.

(** X20.  Nor is [clearTokens]: when the native call for its entry number
    [j] fails, the entries after it are still in the keychain, and the
    caller gets "Failed to clear tokens". *)
Theorem keytar_clear_is_not_atomic (j : nat) rest m :
  (j < 4)%nat →
  clearTokens
    {| Keytar.entries := m; Keytar.faults := replicate j false ++ true :: rest |}
  = (Throw (TokenStorageError "Failed to clear tokens"),
     {| Keytar.entries := foldl erase m (take j accounts);
        Keytar.faults := rest |})
  ∧ ∀ account, account ∈ drop j accounts →
      foldl erase m (take j accounts) !! (SERVICE_NAME, account)
      = m !! (SERVICE_NAME, account).
Proof.
  intros Hj. split.
  - destruct j as [|[|[|[|j]]]]; [reflexivity..|lia].
  - intros account. unfold accounts, erase.
    destruct j as [|[|[|[|j]]]]; simpl; [done|..|lia];
      rewrite !elem_of_cons, elem_of_nil;
      intros Haccount;
      repeat (destruct Haccount as [-> | Haccount]); try (by destruct Haccount);
      by rewrite !lookup_delete_ne by done.
Qed.

(** X21.  A failed [storeTokens] over an older token set leaves a readable
    mixture: the fields written before the failing call are the new ones,
    the others the old ones - for a failure at the second call, the new
    access token with the old expiry. *)
Theorem keytar_failed_store_mixes_token_sets old new (j : nat) m :
  (j < 4)%nat →
  accessToken old ≠ "" → refreshToken old ≠ "" → scope old ≠ "" →
  accessToken new ≠ "" → refreshToken new ≠ "" → scope new ≠ "" →
  Js.prints_as_decimal (expiresAt old) → Js.prints_as_decimal (expiresAt new) →
  let k := {| Keytar.entries := foldl write m (written old);
              Keytar.faults := replicate j false ++ [true] |} in
  (storeTokens new k).1 = Throw (TokenStorageError "Failed to store tokens")
  ∧ getTokens (storeTokens new k).2
    = (Ok {| retrieved_accessToken :=
               if bool_decide (0 < j)%nat then accessToken new else accessToken old;
             retrieved_refreshToken :=
               if bool_decide (1 < j)%nat then refreshToken new else refreshToken old;
             retrieved_expiresAt :=
               Some (if bool_decide (2 < j)%nat then expiresAt new else expiresAt old);
             retrieved_scope := scope old |},
       sound (foldl write (foldl write m (written old)) (take j (written new)))).
Proof.
  intros Hj Hao Hro Hso Han Hrn Hsn _ _ k.
  assert (Hstore :
            storeTokens new k
            = (Throw (TokenStorageError "Failed to store tokens"),
               sound (foldl write (foldl write m (written old))
                        (take j (written new))))).
  { unfold k. by apply storeTokens_fault. }
  rewrite Hstore. split; [done|]. cbn [snd].
  rewrite getTokens_calm by done.
  unfold Keytar.after, sound. simpl Keytar.entries. simpl Keytar.faults.
  f_equal.
  destruct j as [|[|[|[|j]]]]; [..|lia]; unfold assembled, written, write;
    simpl;
    repeat (rewrite lookup_insert_eq || rewrite lookup_insert_ne by done);
    simpl; unfold falsy_string;
    rewrite ?(bool_decide_eq_false_2 (_ = "")) by
      (done || apply number_toString_nonempty);
    simpl; by rewrite parseInt_number_toString.
Qed.

(** X22.  [updateAccessToken] with an empty access token fails and changes
    nothing: on a keychain that holds a readable token set it throws
    "Failed to store tokens" at its first write, before any native call of
    [storeTokens], and the old set is read back afterwards. *)
Theorem keytar_update_with_empty_token old expiresAt' k :
  Keytar.calm 8 k = true →
  (getTokens k).1 = Ok old →
  updateAccessToken "" expiresAt' k
  = (Throw (TokenStorageError "Failed to store tokens"),
     Keytar.after 4 (Keytar.entries k) k)
  ∧ getTokens (Keytar.after 4 (Keytar.entries k) k)
    = (Ok old, Keytar.after 8 (Keytar.entries k) k).
Proof.
  intros Hcalm Hget.
  rewrite getTokens_calm in Hget by (apply (calm_le 4 8); [lia|done]).
  simpl in Hget. split.
  - unfold updateAccessToken, mbind, eff_bind.
    rewrite getTokens_calm by (apply (calm_le 4 8); [lia|done]).
    rewrite Hget. cbv beta iota. reflexivity.
  - rewrite getTokens_calm by (by apply (calm_after 4 4)).
    by rewrite ?entries_after, Hget, after_after.
Qed.

(** *** Concrete keychains *)

Lemma keytar_store_then_get_witness :
  (storeTokens KeytarFixtures.tokens;;
   tokens' ← getTokens;
   valid ← hasValidTokens 1700000000000;
   mret (tokens', valid)) KeytarFixtures.empty
  = (Ok (retrieved_of KeytarFixtures.tokens, true),
     sound (foldl write ∅ (written KeytarFixtures.tokens))).
Proof.
  apply (keytar_store_then_get KeytarFixtures.tokens 1700000000000
           KeytarFixtures.empty); done.
Defined.

Lemma keytar_empty_field_is_rejected_witness :
  (storeTokens KeytarFixtures.without_scope KeytarFixtures.empty).1
  = Throw (TokenStorageError "Failed to store tokens")
  ∧ (accessToken KeytarFixtures.without_scope = "" →
     (storeTokens KeytarFixtures.without_scope KeytarFixtures.empty).2
     = KeytarFixtures.empty).
Proof.
  apply (keytar_empty_field_is_rejected KeytarFixtures.without_scope
           KeytarFixtures.empty).
  right. right. reflexivity.
Defined.

Lemma keytar_clear_then_get_witness :
  clearTokens (KeytarFixtures.holding 1700003600000) = (Ok tt, KeytarFixtures.empty)
  ∧ getTokens KeytarFixtures.empty
    = (Throw (TokenStorageError "No tokens found"), KeytarFixtures.empty)
  ∧ hasValidTokens 1700000000000 KeytarFixtures.empty
    = (Ok false, KeytarFixtures.empty).
Proof.
  destruct (keytar_clear_then_get 1700000000000
              (KeytarFixtures.holding 1700003600000) eq_refl)
    as (Hclear & Hget & Hvalid & _).
  split_and!; [exact Hclear | exact Hget | exact Hvalid].
Defined.

Lemma keytar_update_keeps_refresh_token_witness :
  (updateAccessToken "new-token" 1700007200000;; getTokens)
    (KeytarFixtures.holding 1700003600000)
  = (Ok (retrieved_of KeytarFixtures.updated),
     sound (foldl write ∅ (written KeytarFixtures.updated))).
Proof.
  apply (keytar_update_keeps_refresh_token
           (retrieved_of (Fixtures.tokens 1700003600000))
           "new-token" 1700007200000 (KeytarFixtures.holding 1700003600000));
    done.
Defined.

Lemma keytar_update_needs_complete_set_witness :
  (updateAccessToken "new-token" 1700007200000 KeytarFixtures.empty).1
  = Throw (TokenStorageError "No tokens found")
  ∧ Keytar.entries
      (updateAccessToken "new-token" 1700007200000 KeytarFixtures.empty).2
    = ∅.
Proof.
  apply (keytar_update_needs_complete_set "new-token" 1700007200000
           "access_token" KeytarFixtures.empty); [|reflexivity].
  unfold accounts. constructor.
Defined.

Lemma keytar_store_is_not_atomic_witness :
  storeTokens KeytarFixtures.tokens
    {| Keytar.entries := ∅; Keytar.faults := [false; false; true] |}
  = (Throw (TokenStorageError "Failed to store tokens"),
     sound (<[(SERVICE_NAME, "refresh_token") := "test-refresh-token"]>
              (<[(SERVICE_NAME, "access_token") := "test-access-token"]> ∅))).
Proof.
  apply (keytar_store_is_not_atomic KeytarFixtures.tokens 2 [] ∅);
    [lia|reflexivity|done..].
Defined.

Lemma keytar_clear_is_not_atomic_witness :
  clearTokens
    {| Keytar.entries := Keytar.entries (KeytarFixtures.holding 1700003600000);
       Keytar.faults := [false; true] |}
  = (Throw (TokenStorageError "Failed to clear tokens"),
     sound (delete (SERVICE_NAME, "access_token")
              (Keytar.entries (KeytarFixtures.holding 1700003600000))))
  ∧ ∀ account, account ∈ ["refresh_token"; "expires_at"; "scope"] →
      delete (SERVICE_NAME, "access_token")
        (Keytar.entries (KeytarFixtures.holding 1700003600000))
      !! (SERVICE_NAME, account)
      = Keytar.entries (KeytarFixtures.holding 1700003600000)
        !! (SERVICE_NAME, account).
Proof.
  apply (keytar_clear_is_not_atomic 1 []
           (Keytar.entries (KeytarFixtures.holding 1700003600000))). lia.
Defined.

Lemma keytar_failed_store_mixes_token_sets_witness :
  (storeTokens KeytarFixtures.tokens
     {| Keytar.entries := Keytar.entries (KeytarFixtures.holding 1700000000000);
        Keytar.faults := [false; true] |}).1
  = Throw (TokenStorageError "Failed to store tokens")
  ∧ (getTokens
       (storeTokens KeytarFixtures.tokens
          {| Keytar.entries := Keytar.entries (KeytarFixtures.holding 1700000000000);
             Keytar.faults := [false; true] |}).2).1
    = Ok {| retrieved_accessToken := "test-access-token";
            retrieved_refreshToken := "refresh-token";
            retrieved_expiresAt := Some 1700000000000;
            retrieved_scope := "Tasks.Read User.Read" |}.
Proof.
  destruct (keytar_failed_store_mixes_token_sets
              (Fixtures.tokens 1700000000000) KeytarFixtures.tokens 1 ∅)
    as [Hstore Hget]; [lia|done..|].
  split; [exact Hstore|].
  exact (f_equal fst Hget).
Defined.

Lemma keytar_update_with_empty_token_witness :
  updateAccessToken "" 1700007200000 (KeytarFixtures.holding 1700003600000)
  = (Throw (TokenStorageError "Failed to store tokens"),
     KeytarFixtures.holding 1700003600000)
  ∧ getTokens (KeytarFixtures.holding 1700003600000)
    = (Ok (retrieved_of (Fixtures.tokens 1700003600000)),
       KeytarFixtures.holding 1700003600000).
Proof.
  apply (keytar_update_with_empty_token
           (retrieved_of (Fixtures.tokens 1700003600000)) 1700007200000
           (KeytarFixtures.holding 1700003600000)); reflexivity.
Defined.

End KeytarExtras.

(** * Properties of the configuration and of the token manager factory *)

Module FactoryFacts.
Import EnvironmentConfig TokenManagerFactory.

Implicit Types (w : TokenManagerFactory.t) (m : Manager) (op : Op).

Lemma getTokenManager_cached w m :
  tokenManagerInstance w = Some m → getTokenManager w = (Ok m, w).
Proof. intros Hm. unfold getTokenManager. by rewrite Hm. Qed.

Lemma getTokenManager_fresh w :
  tokenManagerInstance w = None →
  getTokenManager w
  = match config w with
    | None =>
        (Throw (ConfigurationError
                  "Configuration not loaded. Call loadConfiguration() first."), w)
    | Some loaded =>
        if is_1password (TOKEN_STORAGE loaded)
        then (Throw (TokenStorageError
                       "1Password integration not yet implemented. Please use TOKEN_STORAGE=keytar"),
              {| config := config w; tokenManagerInstance := None;
                 constructed := S (constructed w) |})
        else (Ok {| class := KeytarClass; object := constructed w |},
              {| config := config w;
                 tokenManagerInstance :=
                   Some {| class := KeytarClass; object := constructed w |};
                 constructed := S (constructed w) |})
    end.
Proof.
  intros Hm. destruct w as [c i n]. simpl in Hm. subst i.
  unfold getTokenManager. simpl.
  destruct c as [loaded|]; [|reflexivity].
  unfold mbind, eff_bind, on_config, getConfiguration. simpl.
  by destruct (is_1password (TOKEN_STORAGE loaded)).
Qed.

Lemma loadConfiguration_world parsed (c : option EnvironmentConfig.t) :
  (loadConfiguration parsed c).2
  = match accepted parsed with Some loaded => Some loaded | None => c end.
Proof.
  destruct parsed as [issues|loaded]; [reflexivity|].
  unfold loadConfiguration, mbind, eff_bind, modify. simpl.
  by destruct (_ && _).
Qed.

Lemma exec_load w parsed :
  tokenManagerInstance (exec w (LoadConfiguration parsed)) = tokenManagerInstance w
  ∧ constructed (exec w (LoadConfiguration parsed)) = constructed w.
Proof.
  unfold exec, on_config.
  by destruct (loadConfiguration parsed (config w)).
Qed.

(** The number of managers constructed never goes down. *)
Lemma constructed_exec w op : (constructed w ≤ constructed (exec w op))%nat.
Proof.
  destruct op as [parsed| |].
  - by rewrite (proj2 (exec_load w parsed)).
  - unfold exec. destruct (tokenManagerInstance w) as [m|] eqn:Hm.
    + by rewrite (getTokenManager_cached w m).
    + rewrite getTokenManager_fresh by done.
      destruct (config w) as [loaded|]; [|done].
      destruct (is_1password _); simpl; lia.
  - done.
Qed.

Lemma constructed_run ops w : (constructed w ≤ constructed (run ops w))%nat.
Proof.
  revert w. induction ops as [|op ops IH]; intros w; [done|].
  simpl. etrans; [apply (constructed_exec w op)|apply IH].
Qed.

Lemma recent_exec n w op : recent n w → recent n (exec w op).
Proof.
  intros Hrecent. destruct op as [parsed| |].
  - destruct (exec_load w parsed) as [Hi Hc]. unfold recent in *.
    by rewrite Hi, Hc.
  - unfold exec. destruct (tokenManagerInstance w) as [m|] eqn:Hm.
    + by rewrite (getTokenManager_cached w m).
    + rewrite getTokenManager_fresh by done. destruct Hrecent as [Hn _].
      destruct (config w) as [loaded|]; [|by split; [|simpl; rewrite Hm]].
      destruct (is_1password _); simpl.
      * split; [simpl; lia|]. simpl. done.
      * split; [simpl; lia|]. simpl. intros m [= <-]. simpl. split; [done|lia].
  - destruct Hrecent as [Hn _]. split; [done|]. simpl. done.
Qed.

Lemma recent_run n ops w : recent n w → recent n (run ops w).
Proof.
  revert w. induction ops as [|op ops IH]; intros w Hw; [done|].
  simpl. by apply IH, recent_exec.
Qed.

Lemma recent_initial : recent 0 initial.
Proof. split; [done|]. simpl. done. Qed.

Lemma recent_get n w m w' :
  recent n w → getTokenManager w = (Ok m, w') →
  class m = KeytarClass ∧ (n ≤ object m < constructed w')%nat
  ∧ tokenManagerInstance w' = Some m.
Proof.
  intros [Hn Hcached] Hget.
  destruct (tokenManagerInstance w) as [m0|] eqn:Hm.
  - rewrite (getTokenManager_cached w m0) in Hget by done.
    injection Hget as <- <-. destruct (Hcached m0 eq_refl) as [? ?]. done.
  - rewrite getTokenManager_fresh in Hget by done.
    destruct (config w) as [loaded|]; [|done].
    destruct (is_1password _); [done|].
    injection Hget as <- <-. simpl. split_and!; try done; lia.
Qed.

Lemma run_without_reset ops w m :
  existsb is_reset ops = false →
  tokenManagerInstance w = Some m →
  tokenManagerInstance (run ops w) = Some m.
Proof.
  revert w. induction ops as [|op ops IH]; intros w Hops Hm; [done|].
  simpl in Hops. apply orb_false_iff in Hops as [Hop Hops].
  simpl. apply IH; [done|].
  destruct op as [parsed| |]; [| |done].
  - by rewrite (proj1 (exec_load w parsed)).
  - unfold exec. by rewrite (getTokenManager_cached w m).
Qed.

Lemma run_with_reset ops w :
  existsb is_reset ops = true →
  recent (constructed w) (run ops w).
Proof.
  revert w. induction ops as [|op ops IH]; intros w Hops; [done|].
  simpl in Hops. simpl.
  destruct (is_reset op) eqn:Hop.
  - destruct op; try done. apply recent_run. split; [done|]. simpl. done.
  - simpl in Hops. destruct (IH (exec w op) Hops) as [Hn Hcached].
    pose proof (constructed_exec w op) as Hle.
    split; [lia|]. intros m Hm. destruct (Hcached m Hm) as [? ?].
    split; [done|lia].
Qed.

End FactoryFacts.

Module FactoryExtras.
Import EnvironmentConfig TokenManagerFactory FactoryFacts.

(** X23.  The configuration in force is the environment of the last call
    of [loadConfiguration] that got past the schema - whether that call
    returned or threw - and the one before the calls when none did. *)
Theorem last_parsed_configuration_is_in_force calls (c : option EnvironmentConfig.t) :
  loads calls c
  = match last (omap accepted calls) with
    | Some loaded => Some loaded
    | None => c
    end.
Proof.
  revert c. induction calls as [|parsed calls IH]; intros c; [done|].
  unfold loads in *. simpl. rewrite IH, loadConfiguration_world.
  destruct (accepted parsed) as [loaded|]; [|done].
  rewrite last_cons. by destruct (last _).
Qed.

(** X24.  A configuration that selects 1Password without a service account
    token is rejected by [loadConfiguration] and is loaded all the same:
    [getConfiguration] returns it afterwards. *)
Theorem rejected_configuration_is_loaded loaded (c : option EnvironmentConfig.t) :
  TOKEN_STORAGE loaded = OnePassword →
  KeytarTokenManager.missing (OP_SERVICE_ACCOUNT_TOKEN loaded) = true →
  (loadConfiguration (inr loaded) c).1
  = Throw (ConfigurationError
             "1Password selected but OP_SERVICE_ACCOUNT_TOKEN not provided")
  ∧ getConfiguration (loadConfiguration (inr loaded) c).2 = (Ok loaded, Some loaded).
Proof.
  intros Hstorage Htoken.
  unfold loadConfiguration, mbind, eff_bind, modify. simpl.
  by rewrite Hstorage, Htoken.
Qed.

(** X25.  The factory is a singleton: once [getTokenManager] has returned
    a manager, it returns that very object again after any calls that do not
    reset the factory, whatever configurations are loaded in between, and
    constructs nothing. *)
Theorem token_manager_is_singleton ops w m w1 :
  getTokenManager w = (Ok m, w1) →
  existsb is_reset ops = false →
  getTokenManager (run ops w1) = (Ok m, run ops w1).
Proof.
  intros Hget Hops. apply getTokenManager_cached, run_without_reset; [done|].
  destruct (tokenManagerInstance w) as [m0|] eqn:Hm.
  - rewrite (getTokenManager_cached w m0) in Hget by done. by injection Hget as <- <-.
  - rewrite getTokenManager_fresh in Hget by done.
    destruct (config w) as [loaded|]; [|done].
    destruct (is_1password _); [done|]. by injection Hget as <- <-.
Qed.

(** X26.  With 1Password selected the factory yields no manager: after a
    configuration with [TOKEN_STORAGE = '1password'] is loaded - accepted or
    rejected - [getTokenManager] throws the [TokenStorageError] of
    [initialize] and caches nothing, so every later call fails alike. *)
Theorem one_password_yields_no_manager w loaded :
  tokenManagerInstance w = None →
  TOKEN_STORAGE loaded = OnePassword →
  let w1 := exec w (LoadConfiguration (inr loaded)) in
  (getTokenManager w1).1
  = Throw (TokenStorageError
             "1Password integration not yet implemented. Please use TOKEN_STORAGE=keytar")
  ∧ tokenManagerInstance (getTokenManager w1).2 = None
  ∧ config (getTokenManager w1).2 = Some loaded.
Proof.
  intros Hnone Hstorage w1.
  assert (Hw1 : tokenManagerInstance w1 = None ∧ config w1 = Some loaded).
  { unfold w1, exec, on_config.
    pose proof (loadConfiguration_world (inr loaded) (config w)) as Hworld.
    destruct (loadConfiguration (inr loaded) (config w)) as [r c']. simpl in *.
    by subst c'. }
  destruct Hw1 as [Hnone1 Hconfig1].
  rewrite getTokenManager_fresh by done. rewrite Hconfig1, Hstorage.
  cbn [is_1password fst snd tokenManagerInstance config]. done.
Qed.

(** X27.  After a reset the factory constructs a new manager: in any run
    from the initial world, a manager returned after a call of
    [resetTokenManager] is another object than one returned before it. *)
Theorem reset_constructs_new_manager ops ops' m m' w1 w2 :
  getTokenManager (run ops initial) = (Ok m, w1) →
  existsb is_reset ops' = true →
  getTokenManager (run ops' w1) = (Ok m', w2) →
  (object m < object m')%nat.
Proof.
  intros Hget Hreset Hget'.
  destruct (recent_get 0 _ _ _ (recent_run 0 ops initial recent_initial) Hget)
    as (_ & [_ Hm] & _).
  destruct (recent_get _ _ _ _ (run_with_reset ops' w1 Hreset) Hget')
    as (_ & [Hm' _] & _).
  lia.
Qed.

(** X28.  Every manager the factory returns is a keytar manager. *)
Theorem factory_returns_keytar_manager ops m w1 :
  getTokenManager (run ops initial) = (Ok m, w1) →
  class m = KeytarClass.
Proof.
  intros Hget.
  by destruct (recent_get 0 _ _ _ (recent_run 0 ops initial recent_initial) Hget).
Qed.

(** *** Concrete runs *)

Lemma rejected_configuration_is_loaded_witness :
  (loadConfiguration (inr (FactoryFixtures.one_password_config None)) None).1
  = Throw (ConfigurationError
             "1Password selected but OP_SERVICE_ACCOUNT_TOKEN not provided")
  ∧ getConfiguration
      (loadConfiguration (inr (FactoryFixtures.one_password_config None)) None).2
    = (Ok (FactoryFixtures.one_password_config None),
       Some (FactoryFixtures.one_password_config None)).
Proof.
  apply (rejected_configuration_is_loaded
           (FactoryFixtures.one_password_config None) None); reflexivity.
Defined.

Lemma token_manager_is_singleton_witness :
  getTokenManager
    (run [LoadConfiguration (inr (FactoryFixtures.one_password_config None));
          GetTokenManager]
       (getTokenManager FactoryFixtures.configured).2)
  = (Ok FactoryFixtures.first_manager,
     run [LoadConfiguration (inr (FactoryFixtures.one_password_config None));
          GetTokenManager]
       (getTokenManager FactoryFixtures.configured).2).
Proof.
  apply (token_manager_is_singleton _ FactoryFixtures.configured); reflexivity.
Defined.

Lemma one_password_yields_no_manager_witness :
  (getTokenManager
     (exec initial
        (LoadConfiguration (inr (FactoryFixtures.one_password_config (Some "ops_token")))))).1
  = Throw (TokenStorageError
             "1Password integration not yet implemented. Please use TOKEN_STORAGE=keytar")
  ∧ tokenManagerInstance
      (getTokenManager
         (exec initial
            (LoadConfiguration
               (inr (FactoryFixtures.one_password_config (Some "ops_token")))))).2
    = None
  ∧ config
      (getTokenManager
         (exec initial
            (LoadConfiguration
               (inr (FactoryFixtures.one_password_config (Some "ops_token")))))).2
    = Some (FactoryFixtures.one_password_config (Some "ops_token")).
Proof.
  apply (one_password_yields_no_manager initial
           (FactoryFixtures.one_password_config (Some "ops_token"))); reflexivity.
Defined.

Lemma reset_constructs_new_manager_witness :
  (object FactoryFixtures.first_manager < object FactoryFixtures.second_manager)%nat.
Proof.
  apply (reset_constructs_new_manager
           [LoadConfiguration (inr FactoryFixtures.keytar_config)]
           [GetTokenManager; ResetTokenManager]
           FactoryFixtures.first_manager FactoryFixtures.second_manager
           (getTokenManager FactoryFixtures.configured).2
           (getTokenManager
              (run [GetTokenManager; ResetTokenManager]
                 (getTokenManager FactoryFixtures.configured).2)).2);
    reflexivity.
Defined.

Lemma factory_returns_keytar_manager_witness :
  class FactoryFixtures.first_manager = KeytarClass.
Proof.
  apply (factory_returns_keytar_manager
           [LoadConfiguration (inr FactoryFixtures.keytar_config)]
           FactoryFixtures.first_manager
           (getTokenManager FactoryFixtures.configured).2).
  reflexivity.
Defined.

End FactoryExtras.
